(** * PenguinBlur backend: the ephemeral job registry, its reaper and the
      processing routes

    A shallow embedding of

    - [backend/src/services/cleanup.ts]   (class [CleanupService]),
    - [backend/src/routes/upload.ts]      (upload, upload status, delete),
    - [backend/src/routes/video.ts]       (process, download, status, cancel,
                                           [processVideoAsync] and the
                                           progress table),

    and, of the code around them, the health routes ([routes/health.ts]),
    the error handler ([middleware/errorHandler.ts]), the file names of
    multer's storage and of [generateOutputPath], the simulated transcoder
    ([services/videoProcessing.ts]) and the simulated face detection with its
    blur regions and its tracker ([services/faceDetection.ts]),

    followed by the properties of the job lifecycle and of this code.

    Modelling conventions.

    - A JavaScript [Date] is its [getTime()] value, a [Z] in milliseconds.
      All reads of the clock inside one synchronous handler return the
      instant [now] the handler is given.
    - [activeJobs] and [processingProgress] are JavaScript [Map]s keyed by
      strings: [gmap string _].  The registry is enumerated only by the
      reaper and by [getAllJobs]; the enumeration order of the model is that
      of [map_to_list], the one of the source is insertion order.  Only the
      relative order of the removal notices of one sweep depends on it.
    - The disk is the directory [os.tmpdir()/penguinblur], where multer
      stores the uploads and [generateOutputPath] places the results: a
      finite map from the path of a file to its modification time.
    - Every [wss.clients.forEach(... client.send(m))] appends [m] to the log
      [sent] of broadcast messages.
    - The two awaited capabilities of [processVideoAsync] ([detectFaces] and
      [processVideo]) are the environment: a run of [processVideoAsync] that
      is suspended on one of them is an entry of [runs], and the capability
      answers through an event. *)

From Stdlib Require Import ZArith QArith Qround Qminmax Lqa Floats Ascii.
From stdpp Require Import gmap strings list fin_maps sorting pretty.

Local Open Scope string_scope.
Local Open Scope Z_scope.

(** ** Data model ([cleanup.ts], lines 6-13) *)

Inductive Status : Set := processing | completed | failed.

#[global] Instance Status_eq_dec : EqDecision Status.
Proof. solve_decision. Defined.

Record FileJob : Set := mkFileJob {
  id : string;
  filePath : string;
  outputPath : option string;
  createdAt : Z;
  expiresAt : Z;
  status : Status;
}.

#[global] Instance FileJob_eq_dec : EqDecision FileJob.
Proof. solve_decision. Defined.

(** JavaScript truthiness of an optional string: [undefined] and the empty
    string are falsy. *)
Definition truthy (o : option string) : bool :=
  match o with
  | Some s => negb (String.eqb s "")
  | None => false
  end.

(** ** Messages sent to the WebSocket clients *)

(** [removeJob] broadcasts the record with its status replaced by the
    string ['expired'], which is not a [FileJob] status. *)
Inductive WsStatus : Set :=
| ws_status (s : Status)
| ws_expired.

(** The JavaScript numbers that reach the progress table: [0], [30], [100]
    and the results of [Math.round], which are the integers, [NaN] and the
    two infinities.  [-0] is written [0]: no operation of this code tells
    them apart ([-0 || 0] is [0], [JSON.stringify(-0)] is ["0"]).
    [JSON.stringify] writes [NaN] and the infinities as [null]. *)
Inductive JsNumber : Set :=
| integer (z : Z)
| NaN
| Infinity (negative : bool).

Coercion integer : Z >-> JsNumber.

(** [interface ProcessingProgress] ([videoProcessing.ts], lines 13-17), the
    object the transcoder hands to its progress callback.  The [progress]
    values the service writes are integers. *)
Record ProcessingProgress : Set := mkProcessingProgress {
  pp_progress : Z;
  pp_message : string;
  pp_timestamp : Z;
}.

(** What the progress callback of [video.ts] is applied to.  Its body uses
    the parameter as a number; the transcoder of this repository applies it
    to a [ProcessingProgress] object. *)
Inductive JsValue : Set :=
| js_number (x : float)
| js_object (report : ProcessingProgress).

(** The text of a progress message, with the interpolated values.  The
    template [`Processing video... ${progress}%`] interpolates the argument
    of the callback as it is. *)
Inductive ProgressText : Set :=
| StartingFaceDetection
| FoundFaces (n : nat)
| ProcessingVideo (progress : JsValue)
| ProcessingCompleted
| ProcessingFailed (message : string).

Inductive WsMessage : Set :=
| jobUpdate (jobId : string) (st : WsStatus)
            (created expires timeRemaining : Z)
| processingProgressMsg (fileId : string) (progress : JsNumber)
                        (message : ProgressText) (timestamp : Z)
| processingCancelled (fileId : string) (timestamp : Z).

(** ** Suspended runs of [processVideoAsync] *)

Inductive Stage : Set :=
| awaitDetectFaces
| awaitProcessVideo.

#[global] Instance Stage_eq_dec : EqDecision Stage.
Proof. solve_decision. Defined.

Record Run : Set := mkRun {
  run_fileId : string;
  run_inputPath : string;
  run_blurIntensity : string;
  run_detectionMode : string;
  run_stage : Stage;
}.

(** ** The state of the server process *)

Record Server : Type := mkServer {
  activeJobs : gmap string FileJob;
  processingProgress : gmap string JsNumber;
  disk : gmap string Z;
  runs : list Run;
  sent : list WsMessage;
}.

Definition init : Server :=
  {| activeJobs := ∅; processingProgress := ∅; disk := ∅;
     runs := []; sent := [] |}.

Definition with_activeJobs (f : gmap string FileJob → gmap string FileJob)
    (s : Server) : Server :=
  {| activeJobs := f (activeJobs s);
     processingProgress := processingProgress s;
     disk := disk s; runs := runs s; sent := sent s |}.

Definition with_processingProgress
    (f : gmap string JsNumber → gmap string JsNumber)
    (s : Server) : Server :=
  {| activeJobs := activeJobs s;
     processingProgress := f (processingProgress s);
     disk := disk s; runs := runs s; sent := sent s |}.

Definition with_disk (f : gmap string Z → gmap string Z)
    (s : Server) : Server :=
  {| activeJobs := activeJobs s;
     processingProgress := processingProgress s;
     disk := f (disk s); runs := runs s; sent := sent s |}.

Definition with_runs (f : list Run → list Run) (s : Server) : Server :=
  {| activeJobs := activeJobs s;
     processingProgress := processingProgress s;
     disk := disk s; runs := f (runs s); sent := sent s |}.

(** [wss.clients.forEach(client => client.send(m))] *)
Definition broadcast (m : WsMessage) (s : Server) : Server :=
  {| activeJobs := activeJobs s;
     processingProgress := processingProgress s;
     disk := disk s; runs := runs s; sent := sent s ++ [m] |}.

(** ** [CleanupService] ([cleanup.ts]) *)

(** Lines 176-193.  The second argument is the status that is sent: the
    record's own, or ['expired'] from [removeJob]. *)
Definition broadcastJobUpdate (now : Z) (job : FileJob) (st : WsStatus)
    (s : Server) : Server :=
  broadcast (jobUpdate (id job) st (createdAt job) (expiresAt job)
                       (Z.max 0 (expiresAt job - now))) s.

(** Lines 42-53: [this.activeJobs.set(job.id, job)], then the notice. *)
Definition addJob (now : Z) (job : FileJob) (s : Server) : Server :=
  broadcastJobUpdate now job (ws_status (status job))
    (with_activeJobs (insert (id job) job) s).

(** Lines 58-61: [job.status = status; if (outputPath) job.outputPath =
    outputPath].  The path is overwritten only by a truthy argument. *)
Definition updated (st : Status) (out : option string) (job : FileJob)
    : FileJob :=
  {| id := id job; filePath := filePath job;
     outputPath := if truthy out then out else outputPath job;
     createdAt := createdAt job; expiresAt := expiresAt job;
     status := st |}.

(** Lines 55-73. *)
Definition updateJobStatus (now : Z) (jobId : string) (st : Status)
    (out : option string) (s : Server) : Server :=
  match activeJobs s !! jobId with
  | Some job =>
      let job' := updated st out job in
      broadcastJobUpdate now job' (ws_status st)
        (with_activeJobs (insert jobId job') s)
  | None => s
  end.

(** Lines 165-174: [existsSync] then [unlinkSync]; a failure is logged. *)
Definition deleteFileIfExists (path : string) (s : Server) : Server :=
  match disk s !! path with
  | Some _ => with_disk (delete path) s
  | None => s
  end.

(** Lines 75-94. *)
Definition removeJob (now : Z) (jobId : string) (s : Server) : Server :=
  match activeJobs s !! jobId with
  | Some job =>
      let s1 := deleteFileIfExists (filePath job) s in
      let s2 :=
        match outputPath job with
        | Some out =>
            if truthy (outputPath job) then deleteFileIfExists out s1 else s1
        | None => s1
        end in
      let s3 := with_activeJobs (delete jobId) s2 in
      broadcastJobUpdate now job ws_expired s3
  | None => s
  end.

(** Lines 96-98. *)
Definition getJob (jobId : string) (s : Server) : option FileJob :=
  activeJobs s !! jobId.

(** Lines 100-102. *)
Definition getAllJobs (s : Server) : list FileJob :=
  (map_to_list (activeJobs s)).*2.

(** Lines 131-163.  [readdirSync] lists the directory, [statSync] reads the
    modification time of each entry; an entry that has vanished makes
    [statSync] throw, which ends the loop in the outer [catch]. *)
Fixpoint cleanupTempFiles_loop (now expiryTimeMs : Z) (files : list string)
    (s : Server) : Server :=
  match files with
  | [] => s
  | file :: rest =>
      match disk s !! file with
      | Some mtime =>
          let s' := if bool_decide (now - mtime > expiryTimeMs)
                    then with_disk (delete file) s else s in
          cleanupTempFiles_loop now expiryTimeMs rest s'
      | None => s
      end
  end.

Definition cleanupTempFiles (now expiryTimeMs : Z) (s : Server) : Server :=
  cleanupTempFiles_loop now expiryTimeMs (map_to_list (disk s)).*1 s.

(** Lines 104-129: the ids of the expired records are collected first, then
    each is removed, then the directory is scanned. *)
Definition expiredJobs (now : Z) (s : Server) : list string :=
  (filter (λ kv, now > expiresAt kv.2) (map_to_list (activeJobs s))).*1.

(** Lines 116-118: [for (const jobId of expiredJobs) this.removeJob(jobId)]. *)
Definition removeAll (now : Z) (ids : list string) (s : Server) : Server :=
  foldl (λ acc jobId, removeJob now jobId acc) s ids.

Definition cleanup (now expiryTimeMs : Z) (s : Server) : Server :=
  let expired := expiredJobs now s in
  let s' := removeAll now expired s in
  cleanupTempFiles now expiryTimeMs s'.

(** What the scan of the directory leaves of an entry: a file whose age
    exceeds [expiryTimeMs] is unlinked. *)
Definition aged (now expiryTimeMs : Z) (entry : option Z) : option Z :=
  match entry with
  | Some mtime =>
      if bool_decide (now - mtime > expiryTimeMs) then None else Some mtime
  | None => None
  end.

(** ** Progress tracking ([video.ts], lines 227-272) *)

(** JavaScript truthiness of a number: [0] and [NaN] are falsy. *)
Definition truthy_number (x : JsNumber) : bool :=
  match x with
  | integer z => negb (z =? 0)
  | NaN => false
  | Infinity _ => true
  end.

(** Lines 230-232: [processingProgress.get(fileId) || 0]; a missing entry,
    a stored [0] and a stored [NaN] are all falsy. *)
Definition getProcessingProgress (fileId : string) (s : Server) : JsNumber :=
  match processingProgress s !! fileId with
  | Some p => if truthy_number p then p else 0
  | None => 0
  end.

(** Lines 234-252. *)
Definition broadcastProgress (now : Z) (fileId : string) (progress : JsNumber)
    (message : ProgressText) (s : Server) : Server :=
  broadcast (processingProgressMsg fileId progress message now)
    (with_processingProgress (insert fileId progress) s).

(** Lines 254-272. *)
Definition cancelProcessing (now : Z) (fileId : string) (s : Server)
    : Server :=
  broadcast (processingCancelled fileId now)
    (with_processingProgress (delete fileId) s).

(** ** The progress callback ([video.ts], lines 199-202)

    [const totalProgress = 30 + (progress * 0.7);] and
    [Math.round(totalProgress)], on IEEE 754 binary64 numbers, as the
    JavaScript engine computes them.  The multiplication converts its
    operand to a number: a number is itself, an object of the shape of
    [ProcessingProgress] (no [valueOf] or [toString] of its own) is [NaN].
    [0x1.6666666666666p-1] is the double nearest to 0.7. *)

Definition ToNumber (v : JsValue) : float :=
  match v with
  | js_number x => x
  | js_object _ => nan
  end.

Definition totalProgress (progress : JsValue) : float :=
  (30 + ToNumber progress * 0x1.6666666666666p-1)%float.

(** [Math.round]: the nearest integer, a tie towards plus infinity; [NaN]
    and the infinities are returned as they are.  A finite double is
    [m * 2^e], on which the function is computed exactly. *)
Definition Math_round (x : float) : JsNumber :=
  match Prim2SF x with
  | S754_zero _ => integer 0
  | S754_finite sign m e =>
      let v := if sign then Z.neg m else Z.pos m in
      if bool_decide (0 ≤ e) then integer (v * 2 ^ e)
      else integer ((2 * v + 2 ^ (- e)) `div` 2 ^ (- e + 1))
  | S754_infinity sign => Infinity sign
  | S754_nan => NaN
  end.

Definition onProgress (now : Z) (fileId : string) (progress : JsValue)
    (s : Server) : Server :=
  broadcastProgress now fileId (Math_round (totalProgress progress))
    (ProcessingVideo progress) s.

(** The number a JavaScript integer [0 <= n < 2^63] denotes as a double. *)
Definition number_of_Z (n : Z) : float := PrimFloat.of_uint63 (Uint63.of_Z n).

(** [30 + p * 0.7] rounded to the nearest integer, a tie upwards, in exact
    arithmetic: the value [Math.round] would return if the product and the
    sum were not rounded to doubles first. *)
Definition rounded_exactly (p : Z) : Z :=
  Qfloor ((30 + inject_Z p * (7 # 10)) + (1 # 2))%Q.

(** ** The reports of the simulated transcoder
    ([videoProcessing.ts], lines 89-117 and 189-203)

    The interval adds 2 to [progress] and reports
    [{progress: Math.min(progress, 95), message:
    this.getProgressMessage(progress), timestamp: Date.now()}] until
    [progress >= 95]; the final report is
    [{progress: 100, message: 'Processing completed!', timestamp}]. *)

Definition getProgressMessage (progress : Z) : string :=
  if bool_decide (progress < 20) then "Analyzing video..."
  else if bool_decide (progress < 40) then "Detecting faces..."
  else if bool_decide (progress < 60) then "Applying blur effects..."
  else if bool_decide (progress < 80) then "Processing video frames..."
  else if bool_decide (progress < 95) then "Finalizing video..."
  else "Processing completed!".

(** The object of one tick of the interval; [progress] is the counter after
    its increment, [now] the reading of the clock. *)
Definition interval_report (progress now : Z) : ProcessingProgress :=
  {| pp_progress := Z.min progress 95;
     pp_message := getProgressMessage progress;
     pp_timestamp := now |}.

Definition final_report (now : Z) : ProcessingProgress :=
  {| pp_progress := 100;
     pp_message := "Processing completed!";
     pp_timestamp := now |}.

(** The [progress] fields of the reports of the interval, in order. *)
Fixpoint interval_reports (ticks : nat) (progress : Z) : list Z :=
  match ticks with
  | O => []
  | S n =>
      let progress' := progress + 2 in
      Z.min progress' 95 ::
        (if bool_decide (progress' >= 95) then []
         else interval_reports n progress')
  end.

(** The [progress] fields of all the reports of one transcoding. *)
Definition simulated_reports : list Z := interval_reports 48 0 ++ [100].

(** ** HTTP requests and responses *)

(** [req.file], as multer leaves it. *)
Record UploadedFile : Set := mkUploadedFile {
  path : string;
  originalname : string;
  size : Z;
  mimetype : string;
}.

Inductive Body : Set :=
| message (success : bool) (text : string)
| uploaded (fileId originalName : string) (fileSize : Z) (mime : string)
           (uploadedAt expires : Z) (downloadUrl : string)
| processingStarted (fileId : string) (st : Status)
| uploadStatus (fileId : string) (st : Status)
               (created expires timeRemaining : Z)
               (downloadUrl : option string)
| videoStatus (fileId : string) (st : Status)
              (created expires timeRemaining : Z)
              (downloadUrl : option string) (progress : JsNumber)
| fileStream (file : string).

Record Response : Set := mkResponse { code : Z; body : Body }.

Definition notFound : Response :=
  mkResponse 404 (message false "File not found or has expired").

Definition downloadUrlOf (fileId : string) : string :=
  "/api/video/download/" ++ fileId.

(** ** [routes/upload.ts] *)

(** Lines 62-103.  Multer has written the file before the handler runs;
    [uuid] is the value of [uuidv4()]. *)
Definition post_upload (now : Z) (file : option UploadedFile) (uuid : string)
    (s : Server) : Response * Server :=
  match file with
  | None => (mkResponse 400 (message false "No file uploaded"), s)
  | Some f =>
      let s0 := with_disk (insert (path f) now) s in
      let fileId := uuid in
      let expires := now + 15 * 60 * 1000 in
      let s1 := addJob now
                  {| id := fileId; filePath := path f; outputPath := None;
                     createdAt := now; expiresAt := expires;
                     status := processing |} s0 in
      (mkResponse 200
         (uploaded fileId (originalname f) (size f) (mimetype f) now expires
                   (downloadUrlOf fileId)), s1)
  end.

(** Lines 106-131. *)
Definition get_upload_status (now : Z) (fileId : string) (s : Server)
    : Response * Server :=
  match getJob fileId s with
  | None => (notFound, s)
  | Some job =>
      let timeRemaining := Z.max 0 (expiresAt job - now) in
      (mkResponse 200
         (uploadStatus (id job) (status job) (createdAt job) (expiresAt job)
            timeRemaining
            (if truthy (outputPath job) then Some (downloadUrlOf fileId)
             else None)), s)
  end.

(** Lines 134-158. *)
Definition delete_upload (now : Z) (fileId : string) (s : Server)
    : Response * Server :=
  match getJob fileId s with
  | None => (notFound, s)
  | Some job =>
      (mkResponse 200 (message true "File deleted successfully"),
       removeJob now fileId s)
  end.

(** ** [routes/video.ts] *)

(** Lines 179-192, up to the first [await]: the call runs synchronously
    inside the route handler and leaves a suspended run behind. *)
Definition processVideoAsync (now : Z) (fileId inputPath blurIntensity
    detectionMode : string) (s : Server) : Server :=
  let s1 := broadcastProgress now fileId 0 StartingFaceDetection s in
  with_runs (λ rs, (rs ++ [mkRun fileId inputPath blurIntensity detectionMode
                                 awaitDetectFaces])%list) s1.

(** Lines 14-70.  The [catch] of the handler is unreachable: an [async]
    function does not throw synchronously. *)
Definition post_process (now : Z) (fileId : string)
    (blurIntensity detectionMode : option string) (s : Server)
    : Response * Server :=
  let blurIntensity := default "medium" blurIntensity in
  let detectionMode := default "auto" detectionMode in
  match getJob fileId s with
  | None => (notFound, s)
  | Some job =>
      if bool_decide (status job = processing) then
        (mkResponse 400 (message false "File is already being processed"), s)
      else
        let s1 := updateJobStatus now fileId processing None s in
        let s2 := processVideoAsync now fileId (filePath job) blurIntensity
                    detectionMode s1 in
        (mkResponse 200 (processingStarted fileId processing), s2)
  end.

(** Lines 73-113. *)
Definition get_download (fileId : string) (s : Server) : Response * Server :=
  match getJob fileId s with
  | None => (notFound, s)
  | Some job =>
      match outputPath job with
      | Some out =>
          if negb (bool_decide (status job = completed))
             || negb (truthy (outputPath job))
          then (mkResponse 400 (message false "Video processing not completed"),
                s)
          else if bool_decide (is_Some (disk s !! out))
          then (mkResponse 200 (fileStream out), s)
          else (mkResponse 404 (message false "Processed file not found"), s)
      | None =>
          (mkResponse 400 (message false "Video processing not completed"), s)
      end
  end.

(** Lines 116-142. *)
Definition get_status (now : Z) (fileId : string) (s : Server)
    : Response * Server :=
  match getJob fileId s with
  | None => (notFound, s)
  | Some job =>
      let timeRemaining := Z.max 0 (expiresAt job - now) in
      (mkResponse 200
         (videoStatus (id job) (status job) (createdAt job) (expiresAt job)
            timeRemaining
            (if truthy (outputPath job) then Some (downloadUrlOf fileId)
             else None)
            (if bool_decide (status job = processing)
             then getProcessingProgress fileId s else 100)), s)
  end.

(** Lines 145-176. *)
Definition post_cancel (now : Z) (fileId : string) (s : Server)
    : Response * Server :=
  match getJob fileId s with
  | None => (notFound, s)
  | Some job =>
      if negb (bool_decide (status job = processing)) then
        (mkResponse 400
           (message false "File is not currently being processed"), s)
      else
        let s1 := cancelProcessing now fileId s in
        let s2 := updateJobStatus now fileId failed None s1 in
        (mkResponse 200 (message true "Processing cancelled"), s2)
  end.

(** ** The continuations of [processVideoAsync] ([video.ts], lines 192-224) *)

(** [generateOutputPath] ([videoProcessing.ts], lines 173-187) with
    [os.tmpdir()] = ["/tmp"]: [timestamp] is the ISO date of the call with
    [:] and [.] replaced by [-], [uuid] a fresh [uuid.v4()]. *)
Definition generateOutputPath (timestamp uuid : string) : string :=
  "/tmp/penguinblur/processed-" ++ timestamp ++ "-" ++ uuid ++ ".mp4".

(** Line 192: [detectFaces] has returned [faces]; [processVideo] is called
    and awaited. *)
Definition detectFaces_resolved (now : Z) (i : nat) (r : Run) (faces : nat)
    (s : Server) : Server :=
  let s1 := broadcastProgress now (run_fileId r) 30 (FoundFaces faces) s in
  with_runs (<[i := mkRun (run_fileId r) (run_inputPath r)
                          (run_blurIntensity r) (run_detectionMode r)
                          awaitProcessVideo]>) s1.

(** Lines 205-208: [processVideo] has returned [outputPath], after
    [finalizeVideoProcessing] wrote that file. *)
Definition processVideo_resolved (now : Z) (i : nat) (r : Run)
    (out : string) (s : Server) : Server :=
  let s0 := with_disk (insert out now) s in
  let s1 := updateJobStatus now (run_fileId r) completed (Some out) s0 in
  let s2 := broadcastProgress now (run_fileId r) 100 ProcessingCompleted s1 in
  with_runs (delete i) s2.

(** Lines 215-224: the [catch] branch, for a rejection of either
    capability. *)
Definition processVideoAsync_catch (now : Z) (i : nat) (r : Run)
    (msg : string) (s : Server) : Server :=
  let s1 := updateJobStatus now (run_fileId r) failed None s in
  let s2 := broadcastProgress now (run_fileId r) 0 (ProcessingFailed msg) s1 in
  with_runs (delete i) s2.

(** ** Events and the transition function *)

Inductive Event : Set :=
| POST_upload (file : option UploadedFile) (uuid : string)
| GET_upload_status (fileId : string)
| DELETE_upload (fileId : string)
| POST_process (fileId : string) (blurIntensity detectionMode : option string)
| GET_download (fileId : string)
| GET_status (fileId : string)
| POST_cancel (fileId : string)
| reaperTick (expiryTimeMs : Z)
| detectFacesResolved (run : nat) (faces : nat)
| detectFacesRejected (run : nat) (msg : string)
| processVideoProgress (run : nat) (progress : JsValue)
| processVideoResolved (run : nat) (timestamp uuid : string)
| processVideoRejected (run : nat) (msg : string).

(** An event of a capability is taken only by a run that is suspended on
    that capability; otherwise it cannot occur and changes nothing. *)
Definition on_run (i : nat) (stage : Stage) (k : Run → Server → Server)
    (s : Server) : Server :=
  match runs s !! i with
  | Some r => if bool_decide (run_stage r = stage) then k r s else s
  | None => s
  end.

Definition handle (now : Z) (e : Event) (s : Server)
    : option Response * Server :=
  let http (rs : Response * Server) := (Some rs.1, rs.2) in
  match e with
  | POST_upload file uuid => http (post_upload now file uuid s)
  | GET_upload_status fileId => http (get_upload_status now fileId s)
  | DELETE_upload fileId => http (delete_upload now fileId s)
  | POST_process fileId blur mode => http (post_process now fileId blur mode s)
  | GET_download fileId => http (get_download fileId s)
  | GET_status fileId => http (get_status now fileId s)
  | POST_cancel fileId => http (post_cancel now fileId s)
  | reaperTick expiryTimeMs => (None, cleanup now expiryTimeMs s)
  | detectFacesResolved i faces =>
      (None, on_run i awaitDetectFaces
               (λ r, detectFaces_resolved now i r faces) s)
  | detectFacesRejected i msg =>
      (None, on_run i awaitDetectFaces
               (λ r, processVideoAsync_catch now i r msg) s)
  | processVideoProgress i progress =>
      (None, on_run i awaitProcessVideo
               (λ r, onProgress now (run_fileId r) progress) s)
  | processVideoResolved i timestamp uuid =>
      (None, on_run i awaitProcessVideo
               (λ r, processVideo_resolved now i r
                       (generateOutputPath timestamp uuid)) s)
  | processVideoRejected i msg =>
      (None, on_run i awaitProcessVideo
               (λ r, processVideoAsync_catch now i r msg) s)
  end.

Definition step (s : Server) (te : Z * Event) : Server :=
  (handle te.1 te.2 s).2.

(** The state after a history of timed events, oldest first. *)
Definition exec (history : list (Z * Event)) (s : Server) : Server :=
  foldl step s history.

Inductive reachable : Server → Prop :=
| reachable_init : reachable init
| reachable_step s now e :
    reachable s → reachable (handle now e s).2.

Definition statusOf (fileId : string) (s : Server) : option Status :=
  status <$> getJob fileId s.

(** ** Observations on responses *)

(** The [progress] field of the body of a status response. *)
Definition reportedProgress (r : Response) : option JsNumber :=
  match body r with
  | videoStatus _ _ _ _ _ _ progress => Some progress
  | _ => None
  end.

(** The [status] field of a status response of either status route. *)
Definition reportedStatus (r : Response) : option Status :=
  match body r with
  | videoStatus _ st _ _ _ _ _ | uploadStatus _ st _ _ _ _ => Some st
  | _ => None
  end.

(** The [timeRemaining] field of a status response. *)
Definition reportedTimeRemaining (r : Response) : option Z :=
  match body r with
  | videoStatus _ _ _ _ t _ _ | uploadStatus _ _ _ _ t _ => Some t
  | _ => None
  end.

(** ** Invariant of the registry *)

(** Every record that is [completed] carries a non-empty [outputPath]. *)
Definition completed_has_output (s : Server) : Prop :=
  ∀ jobId job, getJob jobId s = Some job → status job = completed →
               truthy (outputPath job) = true.

(** ** The health routes ([routes/health.ts])

    The [jobs] object of [GET /api/health] (lines 25-30): four counts, each
    over a fresh [getAllJobs()]. *)
Record HealthJobs : Set := mkHealthJobs {
  active : nat;
  processingJobs : nat;
  completedJobs : nat;
  failedJobs : nat;
}.

Definition health_jobs (s : Server) : HealthJobs :=
  {| active := length (getAllJobs s);
     processingJobs :=
       length (filter (λ job, status job = processing) (getAllJobs s));
     completedJobs :=
       length (filter (λ job, status job = completed) (getAllJobs s));
     failedJobs :=
       length (filter (λ job, status job = failed) (getAllJobs s)) |}.

(** One entry of the [jobs] list of [GET /api/health/cleanup] and of the
    [details] list of [GET /api/health/detailed] (lines 55-61, 79-85). *)
Record JobDetail : Set := mkJobDetail {
  detail_id : string;
  detail_status : Status;
  detail_createdAt : Z;
  detail_expiresAt : Z;
  detail_timeRemaining : Z;
}.

Definition job_detail (now : Z) (job : FileJob) : JobDetail :=
  {| detail_id := id job; detail_status := status job;
     detail_createdAt := createdAt job; detail_expiresAt := expiresAt job;
     detail_timeRemaining := Z.max 0 (expiresAt job - now) |}.

(** [GET /api/health/cleanup] (lines 72-88): [activeJobs] and [jobs]. *)
Definition health_cleanup (now : Z) (s : Server) : nat * list JobDetail :=
  (length (getAllJobs s), job_detail now <$> getAllJobs s).

(** The notice [removeJob] broadcasts for a record at time [now]. *)
Definition expiredNotice (now : Z) (job : FileJob) : WsMessage :=
  jobUpdate (id job) ws_expired (createdAt job) (expiresAt job)
            (Z.max 0 (expiresAt job - now)).

(** ** The name of a stored upload ([routes/upload.ts], lines 24-28)

    [originalname.split('.')]: the segments between the dots; the empty
    string has the one segment [""]. *)
Fixpoint split_dot (s : string) : list string :=
  match s with
  | EmptyString => [""]
  | String c rest =>
      if Ascii.eqb c "."%char then "" :: split_dot rest
      else match split_dot rest with
           | seg :: segs => String c seg :: segs
           | [] => [String c ""]
           end
  end.

(** [Array.prototype.join('.')]. *)
Fixpoint join_dot (segs : list string) : string :=
  match segs with
  | [] => ""
  | [seg] => seg
  | seg :: rest => seg ++ "." ++ join_dot rest
  end.

(** [Array.prototype.pop] of a non-empty array: its last element. *)
Definition pop (segs : list string) : string := default "" (last segs).

(** The [filename] callback of the disk storage:
    [`${uniqueSuffix}.${ext}`] with [ext = originalname.split('.').pop()]. *)
Definition storage_filename (uniqueSuffix originalname : string) : string :=
  uniqueSuffix ++ "." ++ pop (split_dot originalname).

Fixpoint contains_dot (s : string) : bool :=
  match s with
  | EmptyString => false
  | String c rest => Ascii.eqb c "."%char || contains_dot rest
  end.

(** ** The error handler ([middleware/errorHandler.ts], lines 9-73)

    An error as the handler reads it: [name], [message], [code] (a number
    for a duplicate key, a string for multer), an optional [statusCode],
    the [message]s of the values of [errors] when the error has that field,
    and the [stack]. *)
Inductive ErrorCode : Set :=
| code_number (n : Z)
| code_string (s : string).

#[global] Instance ErrorCode_eq_dec : EqDecision ErrorCode.
Proof. solve_decision. Defined.

Record CustomError : Set := mkCustomError {
  err_name : string;
  err_message : string;
  err_code : option ErrorCode;
  err_statusCode : option Z;
  err_errors : option (list string);
  err_stack : option string;
}.

Record ErrorResponse : Set := mkErrorResponse {
  er_status : Z;
  er_error : string;
  er_stack : option string;
}.

(** [hay.includes(needle)] *)
Fixpoint includes (needle hay : string) : bool :=
  String.prefix needle hay ||
  match hay with
  | EmptyString => false
  | String _ rest => includes needle rest
  end.

(** [Array.prototype.join(', ')] *)
Fixpoint join_comma (l : list string) : string :=
  match l with
  | [] => ""
  | [x] => x
  | x :: rest => x ++ ", " ++ join_comma rest
  end.

(** [x || y] on an optional number and on a string. *)
Definition or_number (x : option Z) (y : Z) : Z :=
  match x with
  | Some n => if bool_decide (n = 0) then y else n
  | None => y
  end.

Definition or_string (x y : string) : string :=
  if String.eqb x "" then y else x.

(** The handler.  Each [if] tests the error it was given and overwrites the
    message and the status code of the copy [error]; the last one that
    applies wins.  [Object.values(err.errors)] throws when a validation
    error has no [errors]: the result is then [None].  [development] is
    [process.env.NODE_ENV === 'development']. *)
Definition errorHandler (development : bool) (err : CustomError)
    : option ErrorResponse :=
  let error0 := (err_message err, err_statusCode err) in
  let error1 :=
    if String.eqb (err_name err) "CastError"
    then ("Resource not found", Some 404) else error0 in
  let error2 :=
    if bool_decide (err_code err = Some (code_number 11000))
    then ("Duplicate field value entered", Some 400) else error1 in
  let error3 :=
    if String.eqb (err_name err) "ValidationError"
    then match err_errors err with
         | Some messages => Some (join_comma messages, Some 400)
         | None => None
         end
    else Some error2 in
  match error3 with
  | None => None
  | Some error3 =>
      let error4 :=
        if bool_decide (err_code err = Some (code_string "LIMIT_FILE_SIZE"))
        then ("File size too large. Maximum file size is 50MB.", Some 400)
        else error3 in
      let error5 :=
        if bool_decide
             (err_code err = Some (code_string "LIMIT_UNEXPECTED_FILE"))
        then ("Unexpected file field. Please check your upload.", Some 400)
        else error4 in
      let error6 :=
        if negb (String.eqb (err_message err) "")
           && includes "ffmpeg" (err_message err)
        then ("Video processing failed. Please try a different format.",
              Some 500)
        else error5 in
      let error7 :=
        if negb (String.eqb (err_message err) "")
           && includes "opencv" (err_message err)
        then ("Face detection failed. Please ensure faces are visible in the video.",
              Some 500)
        else error6 in
      Some {| er_status := or_number error7.2 500;
              er_error := or_string error7.1 "Internal Server Error";
              er_stack := if development then err_stack err else None |}
  end.

(** ** Face detection ([services/faceDetection.ts])

    The coordinates and timestamps of the simulated detections are
    integers.  A confidence is a decimal fraction of a few digits, kept
    exact: on such fractions the comparison of the doubles is the comparison
    of the exact values. *)
Record DetectedFace : Set := mkDetectedFace {
  face_id : string;
  face_x : Z;
  face_y : Z;
  face_width : Z;
  face_height : Z;
  face_confidence : Q;
  face_timestamp : Z;
}.

(** [FaceDetectionOptions]: every field is optional. *)
Record FaceDetectionOptions : Set := mkFaceDetectionOptions {
  opt_mode : option string;
  opt_confidence : option Q;
  opt_maxFaces : option Z;
  opt_eyeDistance : option Q;
}.

(** The second argument of [detectFaces]: an options object, or the string
    that [processVideoAsync] passes ([video.ts], line 190).  A string has
    none of the four properties: each reads as [undefined]. *)
Inductive OptionsArg : Set :=
| options_object (o : FaceDetectionOptions)
| options_string (s : string).

Definition arg_mode (a : OptionsArg) : option string :=
  match a with options_object o => opt_mode o | options_string _ => None end.
Definition arg_confidence (a : OptionsArg) : option Q :=
  match a with
  | options_object o => opt_confidence o | options_string _ => None
  end.
Definition arg_maxFaces (a : OptionsArg) : option Z :=
  match a with
  | options_object o => opt_maxFaces o | options_string _ => None
  end.

(** Lines 46-51: [options.x || default]; the empty string and 0 are
    falsy. *)
Definition config_mode (a : OptionsArg) : string :=
  match arg_mode a with
  | Some m => if String.eqb m "" then "auto" else m
  | None => "auto"
  end.

Definition config_confidence (a : OptionsArg) : Q :=
  match arg_confidence a with
  | Some c => if Qeq_bool c 0 then 15 # 100 else c
  | None => 15 # 100
  end.

Definition config_maxFaces (a : OptionsArg) : Z :=
  match arg_maxFaces a with
  | Some n => if bool_decide (n = 0) then 10 else n
  | None => 10
  end.

(** [array.slice(0, end)] for an integer [end]: a negative [end] counts
    from the end of the array. *)
Definition slice0 {A} (stop : Z) (l : list A) : list A :=
  let len := Z.of_nat (length l) in
  let final := if bool_decide (stop < 0) then Z.max (len + stop) 0
               else Z.min stop len in
  take (Z.to_nat final) l.

(** Lines 87-128, 130-156, 158-202, 204-214: what each detection resolves
    with. *)
Definition autoDetection (a : OptionsArg) : list DetectedFace :=
  let faces :=
    [mkDetectedFace "face-1" 100 80 60 80 (85 # 100) 0;
     mkDetectedFace "face-2" 300 120 55 75 (78 # 100) 1000] in
  let filteredFaces :=
    filter (λ face, Qle_bool (config_confidence a) (face_confidence face)
                    = true) faces in
  slice0 (config_maxFaces a) filteredFaces.

Definition conservativeDetection (a : OptionsArg) : list DetectedFace :=
  let faces := [mkDetectedFace "face-1" 120 90 50 70 (92 # 100) 0] in
  let filteredFaces :=
    filter (λ face, Qle_bool (8 # 10) (face_confidence face) = true) faces in
  slice0 (config_maxFaces a) filteredFaces.

Definition aggressiveDetection (a : OptionsArg) : list DetectedFace :=
  let faces :=
    [mkDetectedFace "face-1" 80 60 65 85 (65 # 100) 0;
     mkDetectedFace "face-2" 280 100 58 78 (58 # 100) 500;
     mkDetectedFace "face-3" 180 140 52 68 (52 # 100) 1500] in
  let filteredFaces :=
    filter (λ face, Qle_bool (5 # 10) (face_confidence face) = true) faces in
  slice0 (config_maxFaces a) filteredFaces.

Definition manualDetection : list DetectedFace := [].

(** Lines 30-85.  [files] is the disk; a missing input file makes the
    function throw, and the [catch] rethrows with a prefixed message. *)
Definition detectFaces (files : gmap string Z) (inputPath : string)
    (a : OptionsArg) : string + list DetectedFace :=
  match files !! inputPath with
  | None =>
      inl ("Face detection failed: " ++ ("Input file not found: " ++ inputPath))
  | Some _ =>
      inr (if String.eqb (config_mode a) "conservative"
           then conservativeDetection a
           else if String.eqb (config_mode a) "aggressive"
           then aggressiveDetection a
           else if String.eqb (config_mode a) "manual"
           then manualDetection
           else autoDetection a)
  end.

(** The confidence every face of a detection in the configured mode has at
    least. *)
Definition threshold (a : OptionsArg) : Q :=
  if String.eqb (config_mode a) "conservative" then 8 # 10
  else if String.eqb (config_mode a) "aggressive" then 5 # 10
  else config_confidence a.

(** [facesToBlurRegions] (lines 217-231).  With integer coordinates below
    2^49 the products by 0.75, 1.0, 2.5 and 2.0 and the differences are
    exact in binary64, so the rationals below are the doubles of the
    source. *)
Record BlurRegion : Set := mkBlurRegion {
  region_id : string;
  region_x : Q;
  region_y : Q;
  region_width : Q;
  region_height : Q;
  region_confidence : Q;
  region_timestamp : Z;
}.

Definition facesToBlurRegions (faces : list DetectedFace) : list BlurRegion :=
  (λ face,
     {| region_id := face_id face;
        region_x :=
          Qmax 0 (inject_Z (face_x face) - inject_Z (face_width face) * (75 # 100));
        region_y :=
          Qmax 0 (inject_Z (face_y face) - inject_Z (face_height face) * 1);
        region_width := inject_Z (face_width face) * (25 # 10);
        region_height := inject_Z (face_height face) * 2;
        region_confidence := face_confidence face;
        region_timestamp := face_timestamp face |}) <$> faces.

(** [isSameFace] (lines 277-287). *)
Definition isSameFace (face1 face2 : DetectedFace) : bool :=
  let positionThreshold := 50 in
  let sizeThreshold := 20 in
  bool_decide (Z.abs (face_x face1 - face_x face2) < positionThreshold)
  && bool_decide (Z.abs (face_y face1 - face_y face2) < positionThreshold)
  && bool_decide (Z.abs (face_width face1 - face_width face2) < sizeThreshold)
  && bool_decide
       (Z.abs (face_height face1 - face_height face2) < sizeThreshold).

(** The first loop of [trackFacesAcrossTime] (lines 241-261).  [faceTracks]
    is a [Map] that the loop enumerates: a list in insertion order.

    Lines 246-254: the first track whose last face is the same face takes
    the new face; [None] when no track does.  No track is ever empty, so
    [track[track.length - 1]] is always a face. *)
Fixpoint pushToTrack (face : DetectedFace)
    (faceTracks : list (string * list DetectedFace))
    : option (list (string * list DetectedFace)) :=
  match faceTracks with
  | [] => None
  | (trackId, track) :: rest =>
      if match last track with
         | Some lastFace => isSameFace face lastFace
         | None => false
         end
      then Some ((trackId, (track ++ [face])%list) :: rest)
      else cons (trackId, track) <$> pushToTrack face rest
  end.

(** Lines 243-259: one face. *)
Definition addFace (face : DetectedFace)
    (faceTracks : list (string * list DetectedFace))
    : list (string * list DetectedFace) :=
  match pushToTrack face faceTracks with
  | Some faceTracks' => faceTracks'
  | None =>
      (faceTracks ++
       [(("track-" ++ pretty (length faceTracks))%string, [face])])%list
  end.

(** Lines 241-261: all frames, in the order of [facesByFrame.entries()]. *)
Definition groupFaces (facesByFrame : list (Z * list DetectedFace))
    : list (string * list DetectedFace) :=
  foldl (λ faceTracks frame,
           foldl (λ faceTracks face, addFace face faceTracks)
                 faceTracks frame.2)
        [] facesByFrame.

(** The second loop (lines 264-272) keeps the tracks of more than two
    faces.  Of each face it returns, this gives the id, which is the track
    id, and the timestamp, [track[Math.floor(track.length / 2)].timestamp]
    (line 296);
    the coordinates and the confidence are averages computed in floating
    point and are left out. *)
Definition trackedFaces (facesByFrame : list (Z * list DetectedFace))
    : list (string * Z) :=
  omap (λ t : string * list DetectedFace,
          if bool_decide (2 < length t.2)%nat
          then (λ face, (t.1, face_timestamp face))
                 <$> t.2 !! (length t.2 `div` 2)%nat
          else None)
       (groupFaces facesByFrame).

(** Each face of a track after the first was taken because it is the same
    face as the one before it. *)
Definition linked (track : list DetectedFace) : Prop :=
  ∀ l1 a b l2, track = (l1 ++ a :: b :: l2)%list → isSameFace b a = true.

(** The id of the track created when [faceTracks.size] is [i]. *)
Definition trackId_of (i : nat) : string := "track-" ++ pretty i.

(** What the first loop keeps true of [faceTracks], with [faces] the faces
    taken so far: the ids count up, every face is in one track, no track is
    empty and every track is linked. *)
Definition tracks_of (faces : list DetectedFace)
    (T : list (string * list DetectedFace)) : Prop :=
  T.*1 = trackId_of <$> seq 0 (length T) ∧
  concat T.*2 ≡ₚ faces ∧
  Forall (λ t, t.2 ≠ []) T ∧
  Forall (λ t, linked t.2) T.

(** ** The claims of the specification, in its own words *)

Module Spec.

(** "total = 30 + floor(stageProgress * 0.7)" *)
Definition total (stageProgress : Z) : Z :=
  30 + Qfloor (inject_Z stageProgress * (7 # 10))%Q.

(** "select every record whose expiresAt is at or before now" *)
Definition selected (now : Z) (job : FileJob) : bool :=
  bool_decide (expiresAt job ≤ now).

(** A file is "tied to a tracked job" when it is the input or the output of
    a record of the registry. *)
Definition tied (file : string) (s : Server) : Prop :=
  ∃ jobId job, getJob jobId s = Some job ∧
               (filePath job = file ∨ outputPath job = Some file).

End Spec.

(** ** Concrete histories *)

Module Scenario.

Definition clip : UploadedFile :=
  mkUploadedFile "/tmp/penguinblur/clip.mp4" "clip.mp4" 1024 "video/mp4".

Definition clip2 : UploadedFile :=
  mkUploadedFile "/tmp/penguinblur/other.mp4" "other.mp4" 2048 "video/mp4".

(** Job [J] is admitted at time 0; it expires at 900000. *)
Definition admitted : list (Z * Event) :=
  [(0, POST_upload (Some clip) "J")].

(** A cancel request moves the fresh job to [failed]. *)
Definition cancelled_fresh : list (Z * Event) :=
  (admitted ++ [(1000, POST_cancel "J")])%list.

(** A process request then starts a run of [processVideoAsync]. *)
Definition started : list (Z * Event) :=
  (cancelled_fresh ++
   [(2000, POST_process "J" (Some "medium") (Some "auto"))])%list.

(** [autoDetection] returns its two faces after 1500 ms; the run now awaits
    the transcoder. *)
Definition transcoding : list (Z * Event) :=
  (started ++ [(3500, detectFacesResolved 0 2)])%list.

(** The run is cancelled while the transcoder is at work. *)
Definition cancelled : list (Z * Event) :=
  (transcoding ++ [(4000, POST_cancel "J")])%list.

(** The transcoder finishes after the cancellation: 48 ticks of 200 ms and
    one second for [finalizeVideoProcessing]. *)
Definition finished_after_cancel : list (Z * Event) :=
  (cancelled ++ [(14100, processVideoResolved 0 "2026-01-01T00-00-03-500Z"
                           "0b1e")])%list.

(** The transcoder finishes, nobody cancelled. *)
Definition finished : list (Z * Event) :=
  (transcoding ++ [(14100, processVideoResolved 0 "2026-01-01T00-00-03-500Z"
                             "0b1e")])%list.

(** The finished job is processed a second time. *)
Definition reprocessed : list (Z * Event) :=
  (finished ++ [(20000, POST_process "J" (Some "high") None)])%list.

Definition job_J (st : Status) (out : option string) : FileJob :=
  {| id := "J"; filePath := "/tmp/penguinblur/clip.mp4"; outputPath := out;
     createdAt := 0; expiresAt := 900000; status := st |}.

Definition out_J : string :=
  "/tmp/penguinblur/processed-2026-01-01T00-00-03-500Z-0b1e.mp4".

End Scenario.

(** * Properties *)

(** ** The registry *)

Section Registry.
Implicit Types (s : Server) (job : FileJob) (jobId fileId : string).

Lemma getJob_addJob now job jobId s :
  getJob jobId (addJob now job s) =
    if decide (jobId = id job) then Some job else getJob jobId s.
Proof.
  unfold getJob, addJob; cbn.
  destruct (decide (jobId = id job)) as [->|Hne].
  - apply lookup_insert_eq.
  - by rewrite lookup_insert_ne.
Qed.

Lemma getJob_updateJobStatus now fileId st out jobId s :
  getJob jobId (updateJobStatus now fileId st out s) =
    if decide (jobId = fileId) then updated st out <$> getJob jobId s
    else getJob jobId s.
Proof.
  unfold getJob, updateJobStatus.
  destruct (decide (jobId = fileId)) as [->|Hne].
  - destruct (activeJobs s !! fileId) as [job|] eqn:E; cbn.
    + by rewrite lookup_insert_eq.
    + by rewrite E.
  - destruct (activeJobs s !! fileId) as [job|] eqn:E; cbn; [|done].
    by rewrite lookup_insert_ne.
Qed.

Lemma activeJobs_deleteFileIfExists file s :
  activeJobs (deleteFileIfExists file s) = activeJobs s.
Proof. unfold deleteFileIfExists. by destruct (disk s !! file). Qed.

Lemma disk_deleteFileIfExists file file' s :
  disk (deleteFileIfExists file s) !! file' =
    if decide (file' = file) then None else disk s !! file'.
Proof.
  unfold deleteFileIfExists.
  destruct (disk s !! file) eqn:E; cbn.
  - destruct (decide (file' = file)) as [->|Hne].
    + apply lookup_delete_eq.
    + by rewrite lookup_delete_ne.
  - destruct (decide (file' = file)) as [->|Hne]; done.
Qed.

Lemma getJob_removeJob now fileId jobId s :
  getJob jobId (removeJob now fileId s) =
    if decide (jobId = fileId) then None else getJob jobId s.
Proof.
  unfold getJob, removeJob.
  destruct (activeJobs s !! fileId) as [job|] eqn:E.
  - cbn.
    assert (activeJobs
              match outputPath job with
              | Some out =>
                  if truthy (outputPath job)
                  then deleteFileIfExists out
                         (deleteFileIfExists (filePath job) s)
                  else deleteFileIfExists (filePath job) s
              | None => deleteFileIfExists (filePath job) s
              end = activeJobs s) as ->.
    { destruct (outputPath job); [destruct (truthy _)|];
        by rewrite !activeJobs_deleteFileIfExists. }
    destruct (decide (jobId = fileId)) as [->|Hne].
    + apply lookup_delete_eq.
    + by rewrite lookup_delete_ne.
  - destruct (decide (jobId = fileId)) as [->|Hne]; done.
Qed.

(** [removeJob] only ever deletes files. *)
Lemma disk_removeJob_None now fileId file s :
  disk s !! file = None → disk (removeJob now fileId s) !! file = None.
Proof.
  intros Hnone. unfold removeJob.
  destruct (activeJobs s !! fileId) as [job|]; [cbn|done].
  destruct (outputPath job); [destruct (truthy _)|];
    rewrite ?disk_deleteFileIfExists; repeat case_decide; done.
Qed.

(** The files of the removed record are gone. *)
Lemma disk_removeJob_files now fileId job s :
  getJob fileId s = Some job →
  disk (removeJob now fileId s) !! filePath job = None ∧
  ∀ out, outputPath job = Some out → out ≠ "" →
         disk (removeJob now fileId s) !! out = None.
Proof.
  unfold getJob, removeJob. intros ->. cbn. split.
  - destruct (outputPath job); [destruct (truthy _)|];
      rewrite ?disk_deleteFileIfExists; repeat case_decide; done.
  - intros out Hout Hne. rewrite Hout. cbn.
    destruct (String.eqb_spec out ""); [done|]. cbn.
    rewrite disk_deleteFileIfExists. by case_decide.
Qed.

End Registry.

(** ** The reaper *)

Section Reaper.
Implicit Types (s : Server) (job : FileJob) (jobId file : string).

Lemma removeAll_cons now i ids s :
  removeAll now (i :: ids) s = removeAll now ids (removeJob now i s).
Proof. reflexivity. Qed.

Lemma getJob_removeAll now ids jobId s :
  getJob jobId (removeAll now ids s) =
    if decide (jobId ∈ ids) then None else getJob jobId s.
Proof.
  revert s. induction ids as [|i ids IH]; intros s.
  - cbn. case_decide as H; [by apply elem_of_nil in H|done].
  - rewrite removeAll_cons, IH, getJob_removeJob.
    destruct (decide (jobId = i)) as [->|Hne].
    + rewrite (decide_True (P := i ∈ i :: ids)) by apply list_elem_of_here.
      by case_decide.
    + destruct (decide (jobId ∈ ids)) as [Hin|Hin].
      * by rewrite decide_True by by apply list_elem_of_further.
      * rewrite decide_False; [done|].
        intros [?|?]%elem_of_cons; done.
Qed.

Lemma disk_removeAll_None now ids file s :
  disk s !! file = None → disk (removeAll now ids s) !! file = None.
Proof.
  revert s. induction ids as [|i ids IH]; intros s H; [done|].
  rewrite removeAll_cons. by apply IH, disk_removeJob_None.
Qed.

(** Removing a list of ids without duplicates deletes the files of every
    record on it. *)
Lemma disk_removeAll_files now ids jobId job s :
  jobId ∈ ids → getJob jobId s = Some job →
  disk (removeAll now ids s) !! filePath job = None ∧
  ∀ out, outputPath job = Some out → out ≠ "" →
         disk (removeAll now ids s) !! out = None.
Proof.
  revert s. induction ids as [|i ids IH]; intros s Hin Hjob.
  - by apply elem_of_nil in Hin.
  - rewrite removeAll_cons. destruct (decide (jobId = i)) as [->|Hne].
    + destruct (disk_removeJob_files now i job s Hjob) as [H1 H2].
      split; [|intros out Ho Hn]; apply disk_removeAll_None; auto.
    + apply IH.
      * apply elem_of_cons in Hin as [?|?]; done.
      * rewrite getJob_removeJob. by case_decide.
Qed.

Lemma elem_of_expiredJobs now jobId s :
  jobId ∈ expiredJobs now s ↔
  ∃ job, getJob jobId s = Some job ∧ now > expiresAt job.
Proof.
  unfold expiredJobs, getJob. rewrite list_elem_of_fmap. split.
  - intros [[k job] [-> H]]. apply list_elem_of_filter in H as [Hexp H].
    apply elem_of_map_to_list in H. eauto.
  - intros (job & Hjob & Hexp). exists (jobId, job). split; [done|].
    apply list_elem_of_filter. split; [done|].
    by apply elem_of_map_to_list.
Qed.

(** The scan of the directory: every listed entry exists when its turn
    comes, so the loop runs to the end and treats each entry by its
    age alone. *)
Lemma cleanupTempFiles_loop_spec now expiryTimeMs files s :
  NoDup files → (∀ f, f ∈ files → is_Some (disk s !! f)) →
  activeJobs (cleanupTempFiles_loop now expiryTimeMs files s)
    = activeJobs s ∧
  processingProgress (cleanupTempFiles_loop now expiryTimeMs files s)
    = processingProgress s ∧
  runs (cleanupTempFiles_loop now expiryTimeMs files s) = runs s ∧
  sent (cleanupTempFiles_loop now expiryTimeMs files s) = sent s ∧
  ∀ f, disk (cleanupTempFiles_loop now expiryTimeMs files s) !! f =
         if decide (f ∈ files) then aged now expiryTimeMs (disk s !! f)
         else disk s !! f.
Proof.
  revert s. induction files as [|file rest IH]; intros s Hnd Hex.
  - cbn. split_and!; done.
  - apply NoDup_cons in Hnd as [Hnotin Hnd].
    destruct (Hex file) as [mtime Hm]; [apply list_elem_of_here|].
    cbn [cleanupTempFiles_loop]. rewrite Hm.
    set (s' := if bool_decide (now - mtime > expiryTimeMs)
               then with_disk (delete file) s else s).
    assert (Hd : ∀ f, disk s' !! f =
              if decide (f = file) then aged now expiryTimeMs (disk s !! f)
              else disk s !! f).
    { intros f. subst s'. case_decide as Heq.
      - subst f. rewrite Hm. cbn. case_bool_decide; cbn; [|done].
        apply lookup_delete_eq.
      - case_bool_decide; cbn; [|done]. by rewrite lookup_delete_ne. }
    assert (Hrest : activeJobs s' = activeJobs s ∧
                    processingProgress s' = processingProgress s ∧
                    runs s' = runs s ∧ sent s' = sent s).
    { subst s'. by case_bool_decide. }
    destruct Hrest as (Ha & Hp & Hr & Hs).
    destruct (IH s' Hnd) as (IHa & IHp & IHr & IHs & IHd).
    { intros f Hf. rewrite Hd. case_decide as Heq; [by subst f|].
      apply Hex. by apply list_elem_of_further. }
    rewrite IHa, IHp, IHr, IHs. split_and!; try done.
    intros f. rewrite IHd, Hd.
    destruct (decide (f = file)) as [->|Hne].
    + rewrite decide_False by done.
      by rewrite decide_True by apply list_elem_of_here.
    + destruct (decide (f ∈ rest)).
      * by rewrite decide_True by by apply list_elem_of_further.
      * rewrite decide_False; [done|].
        by intros [?|?]%elem_of_cons.
Qed.

Lemma cleanupTempFiles_spec now expiryTimeMs s :
  activeJobs (cleanupTempFiles now expiryTimeMs s) = activeJobs s ∧
  processingProgress (cleanupTempFiles now expiryTimeMs s)
    = processingProgress s ∧
  runs (cleanupTempFiles now expiryTimeMs s) = runs s ∧
  sent (cleanupTempFiles now expiryTimeMs s) = sent s ∧
  ∀ f, disk (cleanupTempFiles now expiryTimeMs s) !! f =
         aged now expiryTimeMs (disk s !! f).
Proof.
  unfold cleanupTempFiles.
  destruct (cleanupTempFiles_loop_spec now expiryTimeMs
              (map_to_list (disk s)).*1 s) as (Ha & Hp & Hr & Hs & Hd).
  - apply NoDup_fst_map_to_list.
  - intros f Hf. apply list_elem_of_fmap in Hf as [[k v] [-> Hkv]].
    apply elem_of_map_to_list in Hkv. by exists v.
  - split_and!; try done. intros f. rewrite Hd.
    case_decide as Hin; [done|].
    destruct (disk s !! f) as [mtime|] eqn:E; [|done].
    exfalso. apply Hin. apply list_elem_of_fmap. exists (f, mtime).
    split; [done|]. by apply elem_of_map_to_list.
Qed.

Lemma getJob_cleanup now expiryTimeMs jobId s :
  getJob jobId (cleanup now expiryTimeMs s) =
    match getJob jobId s with
    | Some job => if bool_decide (now > expiresAt job) then None
                  else Some job
    | None => None
    end.
Proof.
  unfold cleanup.
  destruct (cleanupTempFiles_spec now expiryTimeMs
              (removeAll now (expiredJobs now s) s)) as (Ha & _).
  unfold getJob at 1. cbn zeta. rewrite Ha.
  fold (getJob jobId (removeAll now (expiredJobs now s) s)).
  rewrite getJob_removeAll.
  destruct (getJob jobId s) as [job|] eqn:E.
  - case_decide as Hin; case_bool_decide as Hexp; try done.
    + apply elem_of_expiredJobs in Hin as (job' & Hj & Hgt). congruence.
    + exfalso. apply Hin, elem_of_expiredJobs. eauto.
  - case_decide as Hin; [done|done].
Qed.

End Reaper.

(** ** Expiry sweep *)

(** C6 (amended).  A sweep at time [now] removes a record of the snapshot
    exactly when its [expiresAt] is strictly before [now]: a record whose
    [expiresAt] equals [now] is kept.  Every record it removes has its input
    file, and its output file when it has one, deleted from the disk. *)
Theorem cleanup_removes_strictly_expired now expiryTimeMs jobId job s :
  getJob jobId s = Some job →
  getJob jobId (cleanup now expiryTimeMs s) =
    (if bool_decide (expiresAt job < now) then None else Some job) ∧
  (expiresAt job < now →
   disk (cleanup now expiryTimeMs s) !! filePath job = None ∧
   ∀ out, outputPath job = Some out → out ≠ "" →
          disk (cleanup now expiryTimeMs s) !! out = None).
Proof.
  intros Hjob. split.
  - rewrite getJob_cleanup, Hjob.
    repeat case_bool_decide; done || lia.
  - intros Hexp. unfold cleanup. cbn zeta.
    destruct (cleanupTempFiles_spec now expiryTimeMs
                (removeAll now (expiredJobs now s) s)) as (_ & _ & _ & _ & Hd).
    destruct (disk_removeAll_files now (expiredJobs now s) jobId job s)
      as [Hin Hout]; [|done|].
    { apply elem_of_expiredJobs. exists job. split; [done|lia]. }
    split; [|intros out Ho Hne]; rewrite Hd.
    + by rewrite Hin.
    + by rewrite (Hout out Ho Hne).
Qed.

Lemma cleanup_removes_strictly_expired_witness :
  let s := exec Scenario.finished init in
  let job := Scenario.job_J completed (Some Scenario.out_J) in
  getJob "J" s = Some job ∧
  is_Some (disk s !! filePath job) ∧ is_Some (disk s !! Scenario.out_J) ∧
  getJob "J" (cleanup 900001 900000 s) = None ∧
  disk (cleanup 900001 900000 s) !! filePath job = None ∧
  disk (cleanup 900001 900000 s) !! Scenario.out_J = None.
Proof.
  intros s job.
  assert (Hjob : getJob "J" s = Some job) by (vm_compute; reflexivity).
  destruct (cleanup_removes_strictly_expired 900001 900000 "J" job s Hjob)
    as [Hget Hfiles].
  destruct Hfiles as [Hin Hout]; [vm_compute; reflexivity|].
  split_and!.
  - exact Hjob.
  - vm_compute. eauto.
  - vm_compute. eauto.
  - exact Hget.
  - exact Hin.
  - apply Hout; [reflexivity|discriminate].
Defined.

(** C6, counterexample.  Job [J] expires at 900000.  The specification
    selects it in a sweep at 900000; [cleanup] keeps the record and its
    file. *)
Lemma cleanup_keeps_record_expiring_now :
  let s := exec Scenario.admitted init in
  let job := Scenario.job_J processing None in
  getJob "J" s = Some job ∧
  Spec.selected 900000 job = true ∧
  getJob "J" (cleanup 900000 900000 s) = Some job ∧
  disk (cleanup 900000 900000 s) !! filePath job = Some 0.
Proof. vm_compute. done. Qed.

(** C9 (amended).  The scan of the temporary directory unlinks exactly the
    files whose age [now - mtime] strictly exceeds [expiryTimeMs]; it does
    not consult the registry, which it leaves as it is, so the file of a
    tracked job is unlinked like any other. *)
Theorem cleanupTempFiles_unlinks_by_age now expiryTimeMs file s :
  disk (cleanupTempFiles now expiryTimeMs s) !! file =
    match disk s !! file with
    | Some mtime =>
        if bool_decide (now - mtime > expiryTimeMs) then None else Some mtime
    | None => None
    end ∧
  activeJobs (cleanupTempFiles now expiryTimeMs s) = activeJobs s.
Proof.
  destruct (cleanupTempFiles_spec now expiryTimeMs s) as (Ha & _ & _ & _ & Hd).
  split; [apply Hd|apply Ha].
Qed.

(** C9, counterexample.  The server runs with [FILE_EXPIRY_TIME=5], five
    minutes.  Job [J], admitted at 0, is tracked until 900000; the sweep at
    300001 keeps the record and unlinks its input file. *)
Lemma cleanupTempFiles_unlinks_tracked_file :
  let s := exec Scenario.admitted init in
  let job := Scenario.job_J processing None in
  getJob "J" s = Some job ∧
  Spec.tied (filePath job) s ∧
  disk s !! filePath job = Some 0 ∧
  Spec.tied (filePath job) (cleanupTempFiles 300001 300000 s) ∧
  disk (cleanupTempFiles 300001 300000 s) !! filePath job = None ∧
  getJob "J" (cleanup 300001 300000 s) = Some job ∧
  disk (cleanup 300001 300000 s) !! filePath job = None.
Proof.
  split_and!; try (vm_compute; reflexivity).
  - exists "J", (Scenario.job_J processing None). split; [|by left].
    vm_compute. reflexivity.
  - exists "J", (Scenario.job_J processing None). split; [|by left].
    vm_compute. reflexivity.
Qed.

(** ** Admission *)

(** C8 (amended).  [addJob] stores the record it is given under its id
    whether or not the id is already in the registry: an existing record is
    replaced, no error is reported, and the other records are untouched. *)
Theorem addJob_replaces_existing now job jobId s :
  getJob jobId (addJob now job s) =
    if decide (jobId = id job) then Some job else getJob jobId s.
Proof. apply getJob_addJob. Qed.

(** C8, counterexample.  A second upload whose generated id is again ["J"]
    is answered with 200 and replaces the record of the first. *)
Lemma addJob_overwrites_duplicate :
  let s := exec Scenario.admitted init in
  let r := handle 5000 (POST_upload (Some Scenario.clip2) "J") s in
  getJob "J" s = Some (Scenario.job_J processing None) ∧
  code <$> r.1 = Some 200 ∧
  getJob "J" r.2 =
    Some {| id := "J"; filePath := "/tmp/penguinblur/other.mp4";
            outputPath := None; createdAt := 5000; expiresAt := 905000;
            status := processing |}.
Proof. vm_compute. done. Qed.

(** ** Queries *)

Section Queries.
Implicit Types (s : Server) (job : FileJob) (fileId : string).

Lemma get_status_tracked now fileId job s :
  getJob fileId s = Some job →
  get_status now fileId s =
    (mkResponse 200
       (videoStatus (id job) (status job) (createdAt job) (expiresAt job)
          (Z.max 0 (expiresAt job - now))
          (if truthy (outputPath job) then Some (downloadUrlOf fileId)
           else None)
          (if bool_decide (status job = processing)
           then getProcessingProgress fileId s else 100)), s).
Proof. unfold get_status. by intros ->. Qed.

Lemma get_upload_status_tracked now fileId job s :
  getJob fileId s = Some job →
  get_upload_status now fileId s =
    (mkResponse 200
       (uploadStatus (id job) (status job) (createdAt job) (expiresAt job)
          (Z.max 0 (expiresAt job - now))
          (if truthy (outputPath job) then Some (downloadUrlOf fileId)
           else None)), s).
Proof. unfold get_upload_status. by intros ->. Qed.

Lemma get_status_untracked now fileId s :
  getJob fileId s = None → get_status now fileId s = (notFound, s).
Proof. unfold get_status. by intros ->. Qed.

Lemma get_upload_status_untracked now fileId s :
  getJob fileId s = None → get_upload_status now fileId s = (notFound, s).
Proof. unfold get_upload_status. by intros ->. Qed.

End Queries.

(** C3 (amended).  A status query at a time after [expiresAt] answers 404
    only when the record has been removed.  While the record is still in
    the registry, both status routes answer 200 with the stored status and
    a time remaining of 0; after a sweep at that time they answer 404. *)
Theorem expired_job_reported_until_swept now expiryTimeMs fileId job s :
  getJob fileId s = Some job → expiresAt job < now →
  (code (get_status now fileId s).1 = 200 ∧
   reportedStatus (get_status now fileId s).1 = Some (status job) ∧
   reportedTimeRemaining (get_status now fileId s).1 = Some 0) ∧
  (code (get_upload_status now fileId s).1 = 200 ∧
   reportedStatus (get_upload_status now fileId s).1 = Some (status job) ∧
   reportedTimeRemaining (get_upload_status now fileId s).1 = Some 0) ∧
  (get_status now fileId (cleanup now expiryTimeMs s)).1 = notFound ∧
  (get_upload_status now fileId (cleanup now expiryTimeMs s)).1 = notFound.
Proof.
  intros Hjob Hexp.
  rewrite (get_status_tracked _ _ _ _ Hjob).
  rewrite (get_upload_status_tracked _ _ _ _ Hjob).
  assert (Hgone : getJob fileId (cleanup now expiryTimeMs s) = None).
  { rewrite getJob_cleanup, Hjob. case_bool_decide; [done|lia]. }
  rewrite (get_status_untracked _ _ _ Hgone).
  rewrite (get_upload_status_untracked _ _ _ Hgone).
  unfold reportedStatus, reportedTimeRemaining. cbn.
  rewrite Z.max_l by lia. done.
Qed.

Lemma expired_job_reported_until_swept_witness :
  let s := exec Scenario.finished init in
  let job := Scenario.job_J completed (Some Scenario.out_J) in
  getJob "J" s = Some job ∧ expiresAt job < 960000 ∧
  reportedStatus (get_status 960000 "J" s).1 = Some completed ∧
  (get_status 960000 "J" (cleanup 960000 900000 s)).1 = notFound.
Proof.
  intros s job.
  assert (Hjob : getJob "J" s = Some job) by (vm_compute; reflexivity).
  assert (Hexp : expiresAt job < 960000) by (vm_compute; reflexivity).
  destruct (expired_job_reported_until_swept 960000 900000 "J" job s Hjob Hexp)
    as ((_ & Hst & _) & _ & Hnf & _).
  split_and!; [exact Hjob|exact Hexp|exact Hst|exact Hnf].
Defined.

(** C3, counterexample.  Job [J] expires at 900000.  No sweep has run; at
    900001 both status routes still report it as [processing]. *)
Lemma expired_job_still_reported :
  let s := exec Scenario.admitted init in
  expiresAt <$> getJob "J" s = Some 900000 ∧
  (handle 900001 (GET_status "J") s).1 =
    Some (mkResponse 200 (videoStatus "J" processing 0 900000 0 None 0)) ∧
  (handle 900001 (GET_upload_status "J") s).1 =
    Some (mkResponse 200 (uploadStatus "J" processing 0 900000 0 None)).
Proof. vm_compute. done. Qed.

(** C10.  The status route reports progress 100 for every tracked job whose
    status is not [processing], a failed job included, and progress 0 for a
    job that is [processing] and has no entry in the progress table. *)
Theorem status_progress_of_idle_job now fileId job s :
  getJob fileId s = Some job →
  code (get_status now fileId s).1 = 200 ∧
  (status job ≠ processing →
   reportedProgress (get_status now fileId s).1 = Some (integer 100)) ∧
  (status job = processing → processingProgress s !! fileId = None →
   reportedProgress (get_status now fileId s).1 = Some (integer 0)).
Proof.
  intros Hjob. rewrite (get_status_tracked _ _ _ _ Hjob).
  unfold reportedProgress. cbn. split_and!; [done| |].
  - intros Hst. by rewrite bool_decide_eq_false_2.
  - intros Hst Hnone. rewrite bool_decide_eq_true_2 by done.
    unfold getProcessingProgress. by rewrite Hnone.
Qed.

Lemma status_progress_of_idle_job_witness :
  let failedJob := exec Scenario.cancelled init in
  let freshJob := exec Scenario.admitted init in
  (getJob "J" failedJob = Some (Scenario.job_J failed None) ∧
   reportedProgress (get_status 5000 "J" failedJob).1 = Some (integer 100)) ∧
  (getJob "J" freshJob = Some (Scenario.job_J processing None) ∧
   processingProgress freshJob !! "J" = None ∧
   reportedProgress (get_status 5000 "J" freshJob).1 = Some (integer 0)).
Proof.
  intros failedJob freshJob.
  assert (H1 : getJob "J" failedJob = Some (Scenario.job_J failed None))
    by (vm_compute; reflexivity).
  assert (H2 : getJob "J" freshJob = Some (Scenario.job_J processing None))
    by (vm_compute; reflexivity).
  assert (H3 : processingProgress freshJob !! "J" = None)
    by (vm_compute; reflexivity).
  split.
  - split; [exact H1|].
    apply (status_progress_of_idle_job 5000 "J" _ failedJob H1).
    discriminate.
  - split_and!; [exact H2|exact H3|].
    apply (status_progress_of_idle_job 5000 "J" _ freshJob H2);
      [reflexivity|exact H3].
Defined.

(** ** The progress callback *)

Section Progress.
Implicit Types (s : Server) (p : Z) (v : JsValue).

Lemma rounded_exactly_div p : rounded_exactly p = (7 * p + 305) `div` 10.
Proof.
  unfold rounded_exactly, Qfloor, Qplus, Qmult, inject_Z. cbn.
  change (Z.pos (1 * (1 * 10) * 2)) with (2 * 10).
  change (Z.pos (1 * (1 * 10))) with 10.
  change (Z.pos (1 * 10)) with 10.
  replace ((30 * 10 + p * 7 * 1) * 2 + 1 * 10)
    with (2 * (7 * p + 305)) by lia.
  by rewrite Z.div_mul_cancel_l.
Qed.

Lemma Spec_total_floor p : Spec.total p = 30 + (7 * p) `div` 10.
Proof.
  unfold Spec.total, Qfloor, Qmult, inject_Z. cbn.
  by rewrite (Z.mul_comm p 7).
Qed.

(** Rounding to nearest is the floor or one more. *)
Lemma rounded_exactly_vs_floor p :
  Spec.total p ≤ rounded_exactly p ≤ Spec.total p + 1.
Proof.
  rewrite rounded_exactly_div, Spec_total_floor.
  Z.div_mod_to_equations. lia.
Qed.

(** On the percentages 0..100 the doubles of the JavaScript engine give
    the integer of the exact computation: checked value by value. *)
Lemma Math_round_percent p :
  0 ≤ p ≤ 100 →
  Math_round (totalProgress (js_number (number_of_Z p))) =
    integer (rounded_exactly p).
Proof.
  intros Hrange. rewrite rounded_exactly_div.
  assert (Hall : forallb (λ q,
                   match Math_round (totalProgress (js_number (number_of_Z q)))
                   with
                   | integer z => z =? (7 * q + 305) `div` 10
                   | _ => false
                   end) (seqZ 0 101) = true) by (vm_compute; reflexivity).
  rewrite forallb_forall in Hall.
  specialize (Hall p).
  destruct (Math_round (totalProgress (js_number (number_of_Z p))))
    as [z| |neg].
  - f_equal. apply Z.eqb_eq, Hall.
    apply list_elem_of_In, elem_of_seqZ. lia.
  - exfalso. apply diff_false_true, Hall.
    apply list_elem_of_In, elem_of_seqZ. lia.
  - exfalso. apply diff_false_true, Hall.
    apply list_elem_of_In, elem_of_seqZ. lia.
Qed.

(** Further out the doubles and the exact computation part: the product
    [645 * 0.7] is rounded to a double just below 451.5. *)
Lemma Math_round_beyond_percent :
  Math_round (totalProgress (js_number 645)) = integer 481 ∧
  rounded_exactly 645 = 482.
Proof. split; vm_compute; reflexivity. Qed.

(** The callback applied to an object computes [NaN]. *)
Lemma Math_round_object report :
  Math_round (totalProgress (js_object report)) = NaN.
Proof. reflexivity. Qed.

Lemma on_run_taken i stage r (k : Run → Server → Server) s :
  runs s !! i = Some r → run_stage r = stage → on_run i stage k s = k r s.
Proof.
  unfold on_run. intros -> Hst. by rewrite bool_decide_eq_true_2.
Qed.

Lemma onProgress_records now fileId v s :
  processingProgress (onProgress now fileId v s) !! fileId =
    Some (Math_round (totalProgress v)) ∧
  sent (onProgress now fileId v s) =
    (sent s ++ [processingProgressMsg fileId (Math_round (totalProgress v))
                  (ProcessingVideo v) now])%list.
Proof.
  unfold onProgress, broadcastProgress. cbn. split; [|done].
  apply lookup_insert_eq.
Qed.

End Progress.




(** ** The output path of a completed job *)

Section Invariant.
Implicit Types (s : Server) (job : FileJob) (jobId fileId : string).

Lemma truthy_generateOutputPath timestamp uuid :
  truthy (Some (generateOutputPath timestamp uuid)) = true.
Proof. reflexivity. Qed.

Lemma truthy_Some (o : option string) :
  truthy o = true → ∃ out, o = Some out ∧ out ≠ "".
Proof.
  destruct o as [out|]; [|done]. cbn. intros H. exists out. split; [done|].
  intros ->. done.
Qed.

(** A transition that can only drop records keeps the invariant. *)
Lemma completed_has_output_shrink s s' :
  (∀ jobId job, getJob jobId s' = Some job → getJob jobId s = Some job) →
  completed_has_output s → completed_has_output s'.
Proof. intros Hsub Hinv jobId job Hjob. by apply (Hinv jobId), Hsub. Qed.

Lemma completed_has_output_addJob now job s :
  (status job = completed → truthy (outputPath job) = true) →
  completed_has_output s → completed_has_output (addJob now job s).
Proof.
  intros Hjob Hinv jobId job'. rewrite getJob_addJob.
  case_decide; [|apply Hinv]. by intros [= <-].
Qed.

Lemma completed_has_output_updateJobStatus now fileId st out s :
  (st = completed → truthy out = true) →
  completed_has_output s →
  completed_has_output (updateJobStatus now fileId st out s).
Proof.
  intros Hout Hinv jobId job. rewrite getJob_updateJobStatus.
  case_decide; [|apply Hinv].
  destruct (getJob jobId s) as [old|]; [|done]. cbn.
  intros [= <-]. cbn. intros Hst. by rewrite (Hout Hst), (Hout Hst).
Qed.

Lemma completed_has_output_removeJob now fileId s :
  completed_has_output s → completed_has_output (removeJob now fileId s).
Proof.
  apply completed_has_output_shrink. intros jobId job.
  rewrite getJob_removeJob. by case_decide.
Qed.

Lemma completed_has_output_cleanup now expiryTimeMs s :
  completed_has_output s →
  completed_has_output (cleanup now expiryTimeMs s).
Proof.
  apply completed_has_output_shrink. intros jobId job.
  rewrite getJob_cleanup.
  destruct (getJob jobId s); [by case_bool_decide|done].
Qed.

Lemma completed_has_output_on_run i stage (k : Run → Server → Server) s :
  (∀ r, completed_has_output s → completed_has_output (k r s)) →
  completed_has_output s → completed_has_output (on_run i stage k s).
Proof.
  intros Hk Hinv. unfold on_run.
  destruct (runs s !! i) as [r|]; [|done].
  case_bool_decide; [by apply Hk|done].
Qed.

Lemma completed_has_output_handle now e s :
  completed_has_output s → completed_has_output (handle now e s).2.
Proof.
  intros Hinv. destruct e; cbn [handle snd fst].
  - (* POST_upload *)
    unfold post_upload. destruct file as [f|]; [|done]. cbn [snd].
    by apply completed_has_output_addJob.
  - (* GET_upload_status *)
    unfold get_upload_status. by destruct (getJob fileId s).
  - (* DELETE_upload *)
    unfold delete_upload. destruct (getJob fileId s); [|done].
    by apply completed_has_output_removeJob.
  - (* POST_process *)
    unfold post_process. destruct (getJob fileId s) as [job|]; [|done].
    case_bool_decide; [done|]. cbn [snd].
    by apply (completed_has_output_updateJobStatus now fileId processing
                None s).
  - (* GET_download *)
    unfold get_download. destruct (getJob fileId s) as [job|]; [|done].
    destruct (outputPath job); [|done].
    destruct (_ || _); [done|]. by case_bool_decide.
  - (* GET_status *)
    unfold get_status. by destruct (getJob fileId s).
  - (* POST_cancel *)
    unfold post_cancel. destruct (getJob fileId s) as [job|]; [|done].
    destruct (negb _); [done|]. cbn [snd].
    by apply (completed_has_output_updateJobStatus now fileId failed None
                (cancelProcessing now fileId s)).
  - (* reaperTick *)
    by apply completed_has_output_cleanup.
  - (* detectFacesResolved *)
    by apply completed_has_output_on_run.
  - (* detectFacesRejected *)
    apply completed_has_output_on_run; [|done]. intros r Hs.
    by apply (completed_has_output_updateJobStatus now (run_fileId r)
                failed None s).
  - (* processVideoProgress *)
    by apply completed_has_output_on_run.
  - (* processVideoResolved *)
    apply completed_has_output_on_run; [|done]. intros r Hs.
    by apply (completed_has_output_updateJobStatus now (run_fileId r)
                completed (Some (generateOutputPath timestamp uuid))
                (with_disk (insert (generateOutputPath timestamp uuid) now)
                           s)).
  - (* processVideoRejected *)
    apply completed_has_output_on_run; [|done]. intros r Hs.
    by apply (completed_has_output_updateJobStatus now (run_fileId r)
                failed None s).
Qed.

Lemma reachable_completed_has_output s :
  reachable s → completed_has_output s.
Proof.
  induction 1 as [|s now e _ IH].
  - intros jobId job Hjob. unfold getJob in Hjob. cbn in Hjob.
    by rewrite lookup_empty in Hjob.
  - by apply completed_has_output_handle.
Qed.

Lemma reachable_exec history s :
  reachable s → reachable (exec history s).
Proof.
  revert s. induction history as [|[now e] history IH]; intros s Hs.
  - done.
  - cbn. apply IH. by apply reachable_step.
Qed.

End Invariant.

(** C4 (amended).  In every state the server can reach, a record whose
    status is [completed] carries a non-empty [outputPath].  The converse
    fails: a status update without a path leaves the stored path in place,
    so a record that leaves [completed] keeps its [outputPath]. *)
Theorem completed_job_has_outputPath fileId job s :
  reachable s → getJob fileId s = Some job → status job = completed →
  (∃ out, outputPath job = Some out ∧ out ≠ "") ∧
  ∀ now st, outputPath <$> getJob fileId (updateJobStatus now fileId st None s)
            = Some (outputPath job).
Proof.
  intros Hreach Hjob Hst. split.
  - apply truthy_Some.
    by apply (reachable_completed_has_output s Hreach fileId).
  - intros now st. rewrite getJob_updateJobStatus, decide_True by done.
    by rewrite Hjob.
Qed.

Lemma completed_job_has_outputPath_witness :
  let s := exec Scenario.finished init in
  reachable s ∧
  getJob "J" s = Some (Scenario.job_J completed (Some Scenario.out_J)) ∧
  ∃ out, Some Scenario.out_J = Some out ∧ out ≠ "".
Proof.
  intros s.
  assert (Hreach : reachable s) by apply reachable_exec, reachable_init.
  assert (Hjob : getJob "J" s
                 = Some (Scenario.job_J completed (Some Scenario.out_J)))
    by (vm_compute; reflexivity).
  split_and!; [exact Hreach|exact Hjob|].
  apply (completed_job_has_outputPath "J" _ s Hreach Hjob). reflexivity.
Defined.

(** C4, counterexample.  Job [J] has been completed and is then processed a
    second time: the process request is accepted, the record is
    [processing] and still carries the output path of the first run. *)
Lemma processing_job_with_outputPath :
  let s := exec Scenario.finished init in
  let r := handle 20000 (POST_process "J" (Some "high") None) s in
  getJob "J" s = Some (Scenario.job_J completed (Some Scenario.out_J)) ∧
  r.1 = Some (mkResponse 200 (processingStarted "J" processing)) ∧
  r.2 = exec Scenario.reprocessed init ∧
  getJob "J" r.2 = Some (Scenario.job_J processing (Some Scenario.out_J)).
Proof. vm_compute. done. Qed.

(** ** Terminal states *)

Section Terminal.
Implicit Types (s : Server) (job : FileJob) (fileId f : string).

Lemma post_cancel_not_processing now fileId job s :
  getJob fileId s = Some job → status job ≠ processing →
  post_cancel now fileId s =
    (mkResponse 400 (message false "File is not currently being processed"),
     s).
Proof.
  unfold post_cancel. intros -> Hst. by rewrite bool_decide_eq_false_2.
Qed.

Lemma post_process_not_processing now fileId blur mode job s :
  getJob fileId s = Some job → status job ≠ processing →
  (post_process now fileId blur mode s).1 =
    mkResponse 200 (processingStarted fileId processing) ∧
  getJob fileId (post_process now fileId blur mode s).2 =
    Some (updated processing None job).
Proof.
  unfold post_process. intros Hjob Hst. rewrite Hjob.
  rewrite bool_decide_eq_false_2 by done. cbn [fst snd]. split; [done|].
  change (getJob fileId (updateJobStatus now fileId processing None s)
          = Some (updated processing None job)).
  rewrite getJob_updateJobStatus, decide_True by done. by rewrite Hjob.
Qed.

(** A request that names another job leaves this record alone. *)
Lemma getJob_post_cancel_other now f fileId s :
  f ≠ fileId → getJob fileId (post_cancel now f s).2 = getJob fileId s.
Proof.
  intros Hne. unfold post_cancel. destruct (getJob f s); [|done].
  destruct (negb _); [done|]. cbn [snd].
  change (getJob fileId (updateJobStatus now f failed None
                           (cancelProcessing now f s)) = getJob fileId s).
  rewrite getJob_updateJobStatus. by rewrite decide_False by done.
Qed.

Lemma getJob_post_process_other now f blur mode fileId s :
  f ≠ fileId →
  getJob fileId (post_process now f blur mode s).2 = getJob fileId s.
Proof.
  intros Hne. unfold post_process. destruct (getJob f s); [|done].
  case_bool_decide; [done|]. cbn [snd].
  change (getJob fileId (updateJobStatus now f processing None s)
          = getJob fileId s).
  rewrite getJob_updateJobStatus. by rewrite decide_False by done.
Qed.

(** An event of a capability changes this record only through the
    continuation of the run that takes it. *)
Lemma getJob_on_run_other i stage (k : Run → Server → Server) fileId s :
  (∀ r, runs s !! i = Some r → getJob fileId (k r s) = getJob fileId s) →
  getJob fileId (on_run i stage k s) = getJob fileId s.
Proof.
  intros Hk. unfold on_run. destruct (runs s !! i) as [r|]; [|done].
  case_bool_decide; [by apply Hk|done].
Qed.

Lemma getJob_processVideoAsync_catch_other now i r msg fileId s :
  run_fileId r ≠ fileId →
  getJob fileId (processVideoAsync_catch now i r msg s) = getJob fileId s.
Proof.
  intros Hne. unfold processVideoAsync_catch.
  change (getJob fileId (updateJobStatus now (run_fileId r) failed None s)
          = getJob fileId s).
  rewrite getJob_updateJobStatus. by rewrite decide_False by done.
Qed.

Lemma get_download_state fileId s : (get_download fileId s).2 = s.
Proof.
  unfold get_download. destruct (getJob fileId s) as [job|]; [|done].
  destruct (outputPath job); [|done].
  destruct (_ || _); [done|]. by case_bool_decide.
Qed.

End Terminal.

(** C2 (amended).  Once a job is [completed] or [failed], the status and
    download queries and the cancel requests leave its record as it is (a
    cancel request for it is refused with "not currently being processed"),
    and so do every request that names another job and every event of a run
    of another job.  A process request for it is accepted and moves it back
    to [processing].  A delete request and a sweep after its [expiresAt]
    remove the record. *)
Theorem terminal_record_after_request now e fileId job s :
  getJob fileId s = Some job → status job ≠ processing →
  match e with
  | GET_status _ | GET_upload_status _ | GET_download _ =>
      (handle now e s).2 = s
  | POST_cancel f =>
      getJob fileId (handle now e s).2 = Some job ∧
      (f = fileId →
       handle now e s =
         (Some (mkResponse 400
                  (message false "File is not currently being processed")),
          s))
  | POST_process f _ _ =>
      if decide (f = fileId)
      then (handle now e s).1 =
             Some (mkResponse 200 (processingStarted fileId processing)) ∧
           getJob fileId (handle now e s).2 =
             Some (updated processing None job)
      else getJob fileId (handle now e s).2 = Some job
  | DELETE_upload f =>
      getJob fileId (handle now e s).2 =
        if decide (f = fileId) then None else Some job
  | reaperTick _ =>
      getJob fileId (handle now e s).2 =
        if bool_decide (expiresAt job < now) then None else Some job
  | POST_upload file uuid =>
      file = None ∨ uuid ≠ fileId →
      getJob fileId (handle now e s).2 = Some job
  | detectFacesResolved _ _ | processVideoProgress _ _ =>
      getJob fileId (handle now e s).2 = Some job
  | detectFacesRejected i _ | processVideoResolved i _ _
  | processVideoRejected i _ =>
      (∀ r, runs s !! i = Some r → run_fileId r ≠ fileId) →
      getJob fileId (handle now e s).2 = Some job
  end.
Proof.
  intros Hjob Hst. destruct e as [file uuid|f|f|f blur mode|f|f|f|expiry
                                 |i faces|i msg|i progress|i timestamp uuid
                                 |i msg]; cbn [handle fst snd].
  - (* POST_upload *)
    intros Hother. unfold post_upload. destruct file as [upl|]; [|done].
    cbn [snd]. rewrite getJob_addJob. cbn [id].
    destruct Hother as [?|Hne]; [done|].
    by rewrite decide_False by done.
  - (* GET_upload_status *)
    unfold get_upload_status. by destruct (getJob f s).
  - (* DELETE_upload *)
    unfold delete_upload. destruct (decide (f = fileId)) as [->|Hne].
    + rewrite Hjob. cbn [snd]. rewrite getJob_removeJob.
      by rewrite decide_True by done.
    + destruct (getJob f s); [|done]. cbn [snd].
      rewrite getJob_removeJob. by rewrite decide_False by done.
  - (* POST_process *)
    destruct (decide (f = fileId)) as [->|Hne].
    + destruct (post_process_not_processing now fileId blur mode job s
                  Hjob Hst) as [-> ->]. done.
    + by rewrite getJob_post_process_other.
  - (* GET_download *)
    apply get_download_state.
  - (* GET_status *)
    unfold get_status. by destruct (getJob f s).
  - (* POST_cancel *)
    split.
    + destruct (decide (f = fileId)) as [->|Hne].
      * by rewrite (post_cancel_not_processing now fileId job s Hjob Hst).
      * by rewrite getJob_post_cancel_other.
    + intros ->.
      by rewrite (post_cancel_not_processing now fileId job s Hjob Hst).
  - (* reaperTick *)
    rewrite getJob_cleanup, Hjob. repeat case_bool_decide; done || lia.
  - (* detectFacesResolved *)
    rewrite getJob_on_run_other; [done|]. by intros r _.
  - (* detectFacesRejected *)
    intros Hother. rewrite getJob_on_run_other; [done|]. intros r Hr.
    apply getJob_processVideoAsync_catch_other. by apply Hother.
  - (* processVideoProgress *)
    rewrite getJob_on_run_other; [done|]. by intros r _.
  - (* processVideoResolved *)
    intros Hother. rewrite getJob_on_run_other; [done|]. intros r Hr.
    unfold processVideo_resolved.
    change (getJob fileId
              (updateJobStatus now (run_fileId r) completed
                 (Some (generateOutputPath timestamp uuid))
                 (with_disk (insert (generateOutputPath timestamp uuid) now)
                            s)) = getJob fileId s).
    rewrite getJob_updateJobStatus.
    rewrite decide_False; [done|]. intros Heq. by apply (Hother r Hr).
  - (* processVideoRejected *)
    intros Hother. rewrite getJob_on_run_other; [done|]. intros r Hr.
    apply getJob_processVideoAsync_catch_other. by apply Hother.
Qed.

Lemma terminal_record_after_request_witness :
  let s := exec Scenario.finished init in
  let job := Scenario.job_J completed (Some Scenario.out_J) in
  getJob "J" s = Some job ∧ status job ≠ processing ∧
  handle 15000 (POST_cancel "J") s =
    (Some (mkResponse 400
             (message false "File is not currently being processed")), s) ∧
  getJob "J" (handle 20000 (POST_process "J" None None) s).2 =
    Some (Scenario.job_J processing (Some Scenario.out_J)).
Proof.
  intros s job.
  assert (Hjob : getJob "J" s = Some job) by (vm_compute; reflexivity).
  assert (Hst : status job ≠ processing) by discriminate.
  split_and!; [exact Hjob|exact Hst| |].
  - apply (terminal_record_after_request 15000 (POST_cancel "J") "J" job s
             Hjob Hst). reflexivity.
  - apply (terminal_record_after_request 20000 (POST_process "J" None None)
             "J" job s Hjob Hst).
Defined.

(** C2, counterexample.  Job [J] is [failed] after a cancel request; the
    process request that follows is accepted and the job is [processing]
    again.  The same happens to the [completed] job. *)
Lemma terminal_job_processed_again :
  let failedJob := exec Scenario.cancelled_fresh init in
  let doneJob := exec Scenario.finished init in
  statusOf "J" failedJob = Some failed ∧
  (handle 2000 (POST_process "J" (Some "medium") (Some "auto")) failedJob).1
    = Some (mkResponse 200 (processingStarted "J" processing)) ∧
  statusOf "J"
    (handle 2000 (POST_process "J" (Some "medium") (Some "auto")) failedJob).2
    = Some processing ∧
  statusOf "J" doneJob = Some completed ∧
  (handle 20000 (POST_process "J" (Some "high") None) doneJob).1
    = Some (mkResponse 200 (processingStarted "J" processing)) ∧
  statusOf "J" (handle 20000 (POST_process "J" (Some "high") None) doneJob).2
    = Some processing.
Proof. vm_compute. done. Qed.

(** ** Cancellation and the first start request *)

(** C1, the code at the failing input.  Job [J] is [processing] with a run
    awaiting the transcoder.  The cancel request is answered "Processing
    cancelled" and the job is [failed]; when the transcoder then returns its
    output path, the run writes [completed] over it. *)
Lemma cancelled_job_completes :
  let running := exec Scenario.transcoding init in
  let afterCancel := handle 4000 (POST_cancel "J") running in
  let afterSuccess :=
    handle 14100 (processVideoResolved 0 "2026-01-01T00-00-03-500Z" "0b1e")
           afterCancel.2 in
  statusOf "J" running = Some processing ∧
  afterCancel.1 = Some (mkResponse 200 (message true "Processing cancelled")) ∧
  last (sent afterCancel.2) =
    Some (jobUpdate "J" (ws_status failed) 0 900000 896000) ∧
  statusOf "J" afterCancel.2 = Some failed ∧
  afterSuccess.2 = exec Scenario.finished_after_cancel init ∧
  getJob "J" afterSuccess.2 =
    Some (Scenario.job_J completed (Some Scenario.out_J)) ∧
  (get_status 15000 "J" afterSuccess.2).1 =
    mkResponse 200
      (videoStatus "J" completed 0 900000 885000
         (Some "/api/video/download/J") 100).
Proof. vm_compute. done. Qed.

(** C5, the code at the failing input.  The upload route admits the job
    with status [processing], and the process route refuses every job whose
    status is [processing]: the first process request for a job that has
    just been admitted is answered 400 "File is already being processed"
    and starts nothing. *)
Theorem first_process_request_refused now later file uuid blur mode s :
  let admitted := (handle now (POST_upload (Some file) uuid) s).2 in
  statusOf uuid admitted = Some processing ∧
  handle later (POST_process uuid blur mode) admitted =
    (Some (mkResponse 400 (message false "File is already being processed")),
     admitted).
Proof.
  intros admitted.
  assert (Hjob : getJob uuid admitted =
                 Some {| id := uuid; filePath := path file;
                         outputPath := None; createdAt := now;
                         expiresAt := now + 15 * 60 * 1000;
                         status := processing |}).
  { subst admitted. cbn [handle snd fst post_upload].
    rewrite getJob_addJob. cbn [id]. by rewrite decide_True by done. }
  split.
  - unfold statusOf. by rewrite Hjob.
  - cbn [handle fst snd]. unfold post_process. rewrite Hjob.
    by rewrite bool_decide_eq_true_2 by done.
Qed.

(** * Further properties of the routes and of the registry *)

Section Frames.
Implicit Types (s : Server) (job : FileJob) (jobId fileId f : string).

Lemma Server_eq s s' :
  activeJobs s = activeJobs s' →
  processingProgress s = processingProgress s' →
  disk s = disk s' → runs s = runs s' → sent s = sent s' → s = s'.
Proof. destruct s, s'. cbn. by intros -> -> -> -> ->. Qed.

Lemma getJob_updateJobStatus_None now f st out fileId s :
  getJob fileId s = None →
  getJob fileId (updateJobStatus now f st out s) = None.
Proof.
  intros Hnone. rewrite getJob_updateJobStatus, Hnone. by case_decide.
Qed.

Lemma getJob_removeJob_None now f fileId s :
  getJob fileId s = None → getJob fileId (removeJob now f s) = None.
Proof. intros Hnone. rewrite getJob_removeJob, Hnone. by case_decide. Qed.

Lemma getJob_on_run_None i stage (k : Run → Server → Server) fileId s :
  (∀ r, getJob fileId (k r s) = None) → getJob fileId s = None →
  getJob fileId (on_run i stage k s) = None.
Proof.
  intros Hk Hnone. unfold on_run. destruct (runs s !! i) as [r|]; [|done].
  by case_bool_decide.
Qed.

End Frames.

(** X1.  Every route that names a file id answers 404 "File not found or
    has expired" when the id is not in the registry, and changes nothing:
    no record, no file, no progress entry, no run and no broadcast. *)
Theorem unknown_id_is_not_found now fileId blur mode e s :
  getJob fileId s = None →
  e ∈ [GET_upload_status fileId; DELETE_upload fileId;
       POST_process fileId blur mode; GET_download fileId;
       GET_status fileId; POST_cancel fileId] →
  handle now e s = (Some notFound, s).
Proof.
  intros Hnone Hin.
  repeat (apply elem_of_cons in Hin as [->|Hin]);
    [..|by apply elem_of_nil in Hin]; cbn [handle fst snd].
  - unfold get_upload_status. by rewrite Hnone.
  - unfold delete_upload. by rewrite Hnone.
  - unfold post_process. by rewrite Hnone.
  - unfold get_download. by rewrite Hnone.
  - unfold get_status. by rewrite Hnone.
  - unfold post_cancel. by rewrite Hnone.
Qed.

Lemma unknown_id_is_not_found_witness :
  let s := exec Scenario.admitted init in
  getJob "K" s = None ∧
  handle 5000 (POST_cancel "K") s = (Some notFound, s) ∧
  handle 5000 (GET_download "K") s = (Some notFound, s).
Proof.
  intros s.
  assert (Hnone : getJob "K" s = None) by (vm_compute; reflexivity).
  split_and!; [exact Hnone| |].
  - apply (unknown_id_is_not_found 5000 "K" None None _ s Hnone).
    repeat (apply list_elem_of_here || apply list_elem_of_further).
  - apply (unknown_id_is_not_found 5000 "K" None None _ s Hnone).
    repeat (apply list_elem_of_here || apply list_elem_of_further).
Defined.

(** X2.  A file id that is not in the registry stays out of it under every
    event except an upload that generates this very id: no status update of
    a run that is still in flight, no request and no sweep brings a removed
    record back. *)
Theorem absent_id_stays_absent now e fileId s :
  getJob fileId s = None →
  (∀ file, e ≠ POST_upload (Some file) fileId) →
  getJob fileId (handle now e s).2 = None.
Proof.
  intros Hnone Hup.
  destruct e as [file uuid|f|f|f blur mode|f|f|f|expiry
                |i faces|i msg|i progress|i timestamp uuid|i msg];
    cbn [handle fst snd].
  - unfold post_upload. destruct file as [upl|]; [|done]. cbn [snd].
    rewrite getJob_addJob. cbn [id].
    case_decide as Heq; [|done]. subst uuid. by destruct (Hup upl).
  - unfold get_upload_status. by destruct (getJob f s).
  - unfold delete_upload. destruct (getJob f s); [|done].
    by apply getJob_removeJob_None.
  - unfold post_process. destruct (getJob f s); [|done].
    case_bool_decide; [done|]. cbn [snd].
    by apply (getJob_updateJobStatus_None now f processing None fileId s).
  - by rewrite get_download_state.
  - unfold get_status. by destruct (getJob f s).
  - unfold post_cancel. destruct (getJob f s); [|done].
    destruct (negb _); [done|]. cbn [snd].
    by apply (getJob_updateJobStatus_None now f failed None fileId
                (cancelProcessing now f s)).
  - rewrite getJob_cleanup. by rewrite Hnone.
  - by apply getJob_on_run_None.
  - apply getJob_on_run_None; [|done]. intros r.
    by apply (getJob_updateJobStatus_None now (run_fileId r) failed None
                fileId s).
  - by apply getJob_on_run_None.
  - apply getJob_on_run_None; [|done]. intros r.
    by apply (getJob_updateJobStatus_None now (run_fileId r) completed
                (Some (generateOutputPath timestamp uuid)) fileId
                (with_disk (insert (generateOutputPath timestamp uuid) now)
                           s)).
  - apply getJob_on_run_None; [|done]. intros r.
    by apply (getJob_updateJobStatus_None now (run_fileId r) failed None
                fileId s).
Qed.

Lemma absent_id_stays_absent_witness :
  let s := (handle 5000 (DELETE_upload "J")
              (exec Scenario.transcoding init)).2 in
  getJob "J" s = None ∧
  (run_fileId <$> runs s !! 0%nat) = Some "J" ∧
  getJob "J"
    (handle 14100 (processVideoResolved 0 "2026-01-01T00-00-03-500Z" "0b1e")
            s).2 = None.
Proof.
  intros s.
  assert (Hnone : getJob "J" s = None) by (vm_compute; reflexivity).
  split_and!; [exact Hnone|vm_compute; reflexivity|].
  apply (absent_id_stays_absent 14100 _ "J" s Hnone). discriminate.
Defined.

(** X3.  A delete request for a tracked job answers 200, removes the record
    with its input file and its output file and leaves every other record
    as it is; the same request repeated answers 404 and changes nothing. *)
Theorem delete_is_final now later fileId job s :
  getJob fileId s = Some job →
  let r := delete_upload now fileId s in
  r.1 = mkResponse 200 (message true "File deleted successfully") ∧
  getJob fileId r.2 = None ∧
  disk r.2 !! filePath job = None ∧
  (∀ out, outputPath job = Some out → out ≠ "" → disk r.2 !! out = None) ∧
  (∀ jobId, jobId ≠ fileId → getJob jobId r.2 = getJob jobId s) ∧
  delete_upload later fileId r.2 = (notFound, r.2).
Proof.
  intros Hjob r. subst r. unfold delete_upload at 1 2 3 4 5. rewrite Hjob.
  cbn [fst snd].
  assert (Hgone : getJob fileId (removeJob now fileId s) = None).
  { rewrite getJob_removeJob. by rewrite decide_True by done. }
  destruct (disk_removeJob_files now fileId job s Hjob) as [Hin Hout].
  split_and!; [done|exact Hgone|exact Hin|exact Hout| |].
  - intros jobId Hne. rewrite getJob_removeJob. by rewrite decide_False.
  - unfold delete_upload. rewrite Hjob. cbn [snd]. by rewrite Hgone.
Qed.

Lemma delete_is_final_witness :
  let s := exec Scenario.finished init in
  getJob "J" s = Some (Scenario.job_J completed (Some Scenario.out_J)) ∧
  getJob "J" (delete_upload 20000 "J" s).2 = None ∧
  delete_upload 21000 "J" (delete_upload 20000 "J" s).2 =
    (notFound, (delete_upload 20000 "J" s).2).
Proof.
  intros s.
  assert (Hjob : getJob "J" s =
                 Some (Scenario.job_J completed (Some Scenario.out_J)))
    by (vm_compute; reflexivity).
  destruct (delete_is_final 20000 21000 "J" _ s Hjob)
    as (_ & Hgone & _ & _ & _ & Hagain).
  split_and!; [exact Hjob|exact Hgone|exact Hagain].
Defined.

(** ** What every record of the registry satisfies *)

Section RecordInvariant.
(** A property of a record under its key that the fresh record of an upload
    has and that a status update keeps. *)
Variable P : string → FileJob → Prop.
Hypothesis P_fresh : ∀ now upl uuid,
  P uuid {| id := uuid; filePath := path upl; outputPath := None;
            createdAt := now; expiresAt := now + 15 * 60 * 1000;
            status := processing |}.
Hypothesis P_updated : ∀ k job st out, P k job → P k (updated st out job).

Local Abbreviation all_records s :=
  (∀ k job, getJob k s = Some job → P k job).

Lemma all_records_updateJobStatus now f st out s :
  all_records s → all_records (updateJobStatus now f st out s).
Proof.
  intros Hall k job. rewrite getJob_updateJobStatus.
  case_decide; [|apply Hall].
  destruct (getJob k s) as [old|] eqn:E; [|done]. cbn.
  intros [= <-]. by apply P_updated, Hall.
Qed.

Lemma all_records_shrink s s' :
  (∀ k job, getJob k s' = Some job → getJob k s = Some job) →
  all_records s → all_records s'.
Proof. intros Hsub Hall k job Hjob. by apply Hall, Hsub. Qed.

Lemma all_records_on_run i stage (k : Run → Server → Server) s :
  (∀ r, all_records s → all_records (k r s)) →
  all_records s → all_records (on_run i stage k s).
Proof.
  intros Hk Hall. unfold on_run. destruct (runs s !! i) as [r|]; [|done].
  case_bool_decide; [by apply Hk|done].
Qed.

Lemma all_records_handle now e s :
  all_records s → all_records (handle now e s).2.
Proof.
  intros Hall.
  destruct e as [file uuid|f|f|f blur mode|f|f|f|expiry
                |i faces|i msg|i progress|i timestamp uuid|i msg];
    cbn [handle fst snd].
  - unfold post_upload. destruct file as [upl|]; [|done]. cbn [snd].
    intros k job. rewrite getJob_addJob. cbn [id].
    case_decide as Heq; [|apply Hall]. subst k. intros [= <-]. apply P_fresh.
  - unfold get_upload_status. by destruct (getJob f s).
  - unfold delete_upload. destruct (getJob f s); [|done]. cbn [snd].
    apply (all_records_shrink s); [|done]. intros k job.
    rewrite getJob_removeJob. by case_decide.
  - unfold post_process. destruct (getJob f s); [|done].
    case_bool_decide; [done|]. cbn [snd].
    by apply (all_records_updateJobStatus now f processing None s).
  - by rewrite get_download_state.
  - unfold get_status. by destruct (getJob f s).
  - unfold post_cancel. destruct (getJob f s); [|done].
    destruct (negb _); [done|]. cbn [snd].
    by apply (all_records_updateJobStatus now f failed None
                (cancelProcessing now f s)).
  - apply (all_records_shrink s); [|done]. intros k job.
    rewrite getJob_cleanup.
    destruct (getJob k s); [by case_bool_decide|done].
  - by apply all_records_on_run.
  - apply all_records_on_run; [|done]. intros r Hs.
    by apply (all_records_updateJobStatus now (run_fileId r) failed None s).
  - by apply all_records_on_run.
  - apply all_records_on_run; [|done]. intros r Hs.
    by apply (all_records_updateJobStatus now (run_fileId r) completed
                (Some (generateOutputPath timestamp uuid))
                (with_disk (insert (generateOutputPath timestamp uuid) now)
                           s)).
  - apply all_records_on_run; [|done]. intros r Hs.
    by apply (all_records_updateJobStatus now (run_fileId r) failed None s).
Qed.

Lemma reachable_all_records s : reachable s → all_records s.
Proof.
  induction 1 as [|s now e _ IH].
  - intros k job Hjob. unfold getJob in Hjob. cbn in Hjob.
    by rewrite lookup_empty in Hjob.
  - by apply all_records_handle.
Qed.

End RecordInvariant.





(** ** The progress table *)

(** X6.  The progress table reads back what was written last: after
    [broadcastProgress] for a file the recorded progress of that file is the
    broadcast number, except that a broadcast [NaN] reads as 0 (a stored 0
    and a missing entry read as 0 too); after [cancelProcessing] it is 0;
    the entries of other files are left as they are. *)
Theorem progress_table_reads_last_write now fileId f (progress : JsNumber)
    text s :
  getProcessingProgress f (broadcastProgress now fileId progress text s) =
    (if decide (f = fileId)
     then match progress with
          | NaN => integer 0
          | integer _ | Infinity _ => progress
          end
     else getProcessingProgress f s) ∧
  getProcessingProgress f (cancelProcessing now fileId s) =
    (if decide (f = fileId) then integer 0 else getProcessingProgress f s).
Proof.
  unfold getProcessingProgress, broadcastProgress, cancelProcessing. cbn.
  destruct (decide (f = fileId)) as [->|Hne].
  - rewrite lookup_insert_eq, lookup_delete_eq. split; [|done].
    destruct progress as [z| |neg]; cbn; [|done|done].
    destruct (Z.eqb_spec z 0) as [->|_]; done.
  - by rewrite lookup_insert_ne, lookup_delete_ne.
Qed.

Section StartAndCancel.
Implicit Types (s : Server) (job : FileJob) (fileId : string).

Lemma getJob_post_process_accepted now fileId blur mode job s :
  getJob fileId s = Some job → status job ≠ processing →
  getJob fileId (post_process now fileId blur mode s).2 =
    Some (updated processing None job) ∧
  processingProgress (post_process now fileId blur mode s).2 !! fileId
    = Some (integer 0) ∧
  runs (post_process now fileId blur mode s).2 =
    (runs s ++ [mkRun fileId (filePath job) (default "medium" blur)
                      (default "auto" mode) awaitDetectFaces])%list.
Proof.
  intros Hjob Hst.
  destruct (post_process_not_processing now fileId blur mode job s Hjob Hst)
    as [_ Hget].
  split; [exact Hget|].
  unfold post_process. rewrite Hjob, bool_decide_eq_false_2 by done.
  cbn [snd]. unfold processVideoAsync, broadcastProgress. cbn.
  split; [apply lookup_insert_eq|].
  unfold updateJobStatus. unfold getJob in Hjob. by rewrite Hjob.
Qed.

Lemma post_cancel_processing now fileId job s :
  getJob fileId s = Some job → status job = processing →
  (post_cancel now fileId s).1 =
    mkResponse 200 (message true "Processing cancelled") ∧
  getJob fileId (post_cancel now fileId s).2 = Some (updated failed None job) ∧
  processingProgress (post_cancel now fileId s).2 !! fileId = None ∧
  runs (post_cancel now fileId s).2 = runs s.
Proof.
  intros Hjob Hst. unfold post_cancel. rewrite Hjob.
  rewrite bool_decide_eq_true_2 by done. cbn [negb fst snd].
  split; [done|]. split.
  - change (getJob fileId (updateJobStatus now fileId failed None
                             (cancelProcessing now fileId s))
            = Some (updated failed None job)).
    rewrite getJob_updateJobStatus, decide_True by done.
    change (getJob fileId (cancelProcessing now fileId s))
      with (getJob fileId s). by rewrite Hjob.
  - unfold updateJobStatus.
    change (activeJobs (cancelProcessing now fileId s) !! fileId)
      with (getJob fileId s). rewrite Hjob. cbn.
    split; [apply lookup_delete_eq|done].
Qed.

End StartAndCancel.

(** X7.  A process request for a tracked job that is not [processing] is
    accepted: it appends one run of [processVideoAsync] for the job's input
    file, with the defaults "medium" and "auto" for the parameters the
    request leaves out; the status route then reports [processing] with
    progress 0, and a second process request is refused with 400 "File is
    already being processed" and starts no second run. *)
Theorem accepted_process_request now later fileId blur mode job s :
  getJob fileId s = Some job → status job ≠ processing →
  let s' := (post_process now fileId blur mode s).2 in
  (post_process now fileId blur mode s).1 =
    mkResponse 200 (processingStarted fileId processing) ∧
  runs s' = (runs s ++ [mkRun fileId (filePath job) (default "medium" blur)
                              (default "auto" mode) awaitDetectFaces])%list ∧
  reportedStatus (get_status later fileId s').1 = Some processing ∧
  reportedProgress (get_status later fileId s').1 = Some (integer 0) ∧
  post_process later fileId blur mode s' =
    (mkResponse 400 (message false "File is already being processed"), s').
Proof.
  intros Hjob Hst s'.
  destruct (post_process_not_processing now fileId blur mode job s Hjob Hst)
    as [Hres _].
  destruct (getJob_post_process_accepted now fileId blur mode job s Hjob Hst)
    as (Hget & Hprog & Hruns). fold s' in Hget, Hprog, Hruns.
  split_and!; [exact Hres|exact Hruns| | |].
  - by rewrite (get_status_tracked _ _ _ _ Hget).
  - rewrite (get_status_tracked _ _ _ _ Hget).
    unfold reportedProgress, getProcessingProgress. cbn. by rewrite Hprog.
  - unfold post_process. by rewrite Hget.
Qed.

Lemma accepted_process_request_witness :
  let s := exec Scenario.cancelled_fresh init in
  let s' := (post_process 2000 "J" None None s).2 in
  getJob "J" s = Some (Scenario.job_J failed None) ∧
  (run_detectionMode <$> last (runs s')) = Some "auto" ∧
  reportedProgress (get_status 2500 "J" s').1 = Some (integer 0).
Proof.
  intros s s'.
  assert (Hjob : getJob "J" s = Some (Scenario.job_J failed None))
    by (vm_compute; reflexivity).
  destruct (accepted_process_request 2000 2500 "J" None None _ s Hjob)
    as (_ & Hruns & _ & Hprog & _); [discriminate|].
  split_and!; [exact Hjob| |exact Hprog].
  fold s' in Hruns. rewrite Hruns. by rewrite last_snoc.
Defined.

(** X8.  A cancel request for a tracked job that is [processing] answers
    "Processing cancelled", moves the record to [failed], deletes the job's
    entry of the progress table and leaves the runs alone; the status route
    then reports [failed] with progress 100, and a second cancel request is
    refused with 400 and changes nothing. *)
Theorem accepted_cancel_request now later fileId job s :
  getJob fileId s = Some job → status job = processing →
  let s' := (post_cancel now fileId s).2 in
  (post_cancel now fileId s).1 =
    mkResponse 200 (message true "Processing cancelled") ∧
  processingProgress s' !! fileId = None ∧
  runs s' = runs s ∧
  reportedStatus (get_status later fileId s').1 = Some failed ∧
  reportedProgress (get_status later fileId s').1 = Some (integer 100) ∧
  post_cancel later fileId s' =
    (mkResponse 400 (message false "File is not currently being processed"),
     s').
Proof.
  intros Hjob Hst s'.
  destruct (post_cancel_processing now fileId job s Hjob Hst)
    as (Hres & Hget & Hprog & Hruns). fold s' in Hget, Hprog, Hruns.
  split_and!; [exact Hres|exact Hprog|exact Hruns| | |].
  - by rewrite (get_status_tracked _ _ _ _ Hget).
  - by rewrite (get_status_tracked _ _ _ _ Hget).
  - by apply (post_cancel_not_processing later fileId _ s' Hget).
Qed.

Lemma accepted_cancel_request_witness :
  let s := exec Scenario.transcoding init in
  let s' := (post_cancel 4000 "J" s).2 in
  getJob "J" s = Some (Scenario.job_J processing None) ∧
  processingProgress s !! "J" = Some (integer 30) ∧
  processingProgress s' !! "J" = None ∧
  reportedProgress (get_status 4500 "J" s').1 = Some (integer 100).
Proof.
  intros s s'.
  assert (Hjob : getJob "J" s = Some (Scenario.job_J processing None))
    by (vm_compute; reflexivity).
  destruct (accepted_cancel_request 4000 4500 "J" _ s Hjob)
    as (_ & Hgone & _ & _ & Hprog & _); [reflexivity|].
  split_and!; [exact Hjob|vm_compute; reflexivity|exact Hgone|exact Hprog].
Defined.

(** X9.  The transcoder reports objects.  For every such report to a run
    awaiting the transcoder, the callback's arithmetic on the object yields
    [NaN]: the run records [NaN] in the progress table and broadcasts it
    with a text that interpolates the object, the registry and the runs stay
    as they are, and for a job that is [processing] the status route then
    reports progress 0. *)
Theorem progress_report_records_NaN now later i r report job s :
  runs s !! i = Some r → run_stage r = awaitProcessVideo →
  getJob (run_fileId r) s = Some job → status job = processing →
  let s' := (handle now (processVideoProgress i (js_object report)) s).2 in
  processingProgress s' !! run_fileId r = Some NaN ∧
  sent s' = (sent s ++ [processingProgressMsg (run_fileId r) NaN
                          (ProcessingVideo (js_object report)) now])%list ∧
  activeJobs s' = activeJobs s ∧
  runs s' = runs s ∧
  reportedProgress (get_status later (run_fileId r) s').1 = Some (integer 0).
Proof.
  intros Hrun Hstage Hjob Hst s'. subst s'. cbn [handle snd].
  rewrite (on_run_taken _ _ _ _ _ Hrun Hstage).
  destruct (onProgress_records now (run_fileId r) (js_object report) s)
    as [Hrec Hsent].
  rewrite Math_round_object in Hrec, Hsent.
  split_and!; [exact Hrec|exact Hsent|done|done|].
  rewrite (get_status_tracked later (run_fileId r) job) by exact Hjob.
  cbn [fst reportedProgress body].
  rewrite bool_decide_eq_true_2 by done.
  unfold getProcessingProgress. by rewrite Hrec.
Qed.

Lemma progress_report_records_NaN_witness :
  let s := exec Scenario.transcoding init in
  let report := interval_report 50 8500 in
  let s' := (handle 8500 (processVideoProgress 0 (js_object report)) s).2 in
  report = mkProcessingProgress 50 "Applying blur effects..." 8500 ∧
  50 ∈ simulated_reports ∧
  getJob "J" s = Some (Scenario.job_J processing None) ∧
  processingProgress s !! "J" = Some (integer 30) ∧
  processingProgress s' !! "J" = Some NaN ∧
  reportedProgress (get_status 8600 "J" s').1 = Some (integer 0).
Proof.
  intros s report s'.
  assert (Hjob : getJob "J" s = Some (Scenario.job_J processing None))
    by (vm_compute; reflexivity).
  destruct (progress_report_records_NaN 8500 8600 0
              (mkRun "J" "/tmp/penguinblur/clip.mp4" "medium" "auto"
                     awaitProcessVideo) report
              (Scenario.job_J processing None) s)
    as (Hrec & _ & _ & _ & Hprog);
    [vm_compute; reflexivity|reflexivity|exact Hjob|reflexivity|].
  split_and!;
    [vm_compute; reflexivity| |exact Hjob|vm_compute; reflexivity
    |exact Hrec|exact Hprog].
  apply list_elem_of_In. vm_compute. tauto.
Defined.

(** ** More on the sweep *)

Section Sweep.
Implicit Types (s : Server) (job : FileJob) (k jobId : string).

Lemma removeJob_tracked now k job s :
  getJob k s = Some job →
  sent (removeJob now k s) = (sent s ++ [expiredNotice now job])%list ∧
  processingProgress (removeJob now k s) = processingProgress s ∧
  runs (removeJob now k s) = runs s.
Proof.
  unfold getJob, removeJob. intros ->. cbn.
  destruct (outputPath job); [destruct (truthy _)|];
    unfold deleteFileIfExists; repeat (destruct (disk _ !! _)); done.
Qed.

Lemma removeAll_tracked now (l : list (string * FileJob)) s :
  NoDup l.*1 → (∀ k job, (k, job) ∈ l → getJob k s = Some job) →
  sent (removeAll now l.*1 s) = (sent s ++ (expiredNotice now <$> l.*2))%list ∧
  processingProgress (removeAll now l.*1 s) = processingProgress s ∧
  runs (removeAll now l.*1 s) = runs s.
Proof.
  revert s. induction l as [|[k job] l IH]; intros s Hnd Hall.
  - cbn. by rewrite app_nil_r.
  - cbn [fmap list_fmap fst snd] in *. apply NoDup_cons in Hnd as [Hk Hnd].
    rewrite removeAll_cons.
    destruct (removeJob_tracked now k job s) as (Hs & Hp & Hr).
    { apply Hall. apply list_elem_of_here. }
    destruct (IH (removeJob now k s) Hnd) as (IHs & IHp & IHr).
    { intros k' job' Hin. rewrite getJob_removeJob.
      rewrite decide_False; [by apply Hall, list_elem_of_further|].
      intros ->. apply Hk. apply list_elem_of_fmap. by exists (k, job'). }
    rewrite IHs, IHp, IHr, Hs, Hp, Hr. by rewrite <- app_assoc.
Qed.

Lemma expiredJobs_cleanup now expiryTimeMs s :
  expiredJobs now (cleanup now expiryTimeMs s) = [].
Proof.
  destruct (expiredJobs now (cleanup now expiryTimeMs s)) as [|k l] eqn:E;
    [done|].
  assert (Hin : k ∈ expiredJobs now (cleanup now expiryTimeMs s))
    by (rewrite E; apply list_elem_of_here).
  apply elem_of_expiredJobs in Hin as (job & Hjob & Hgt).
  rewrite getJob_cleanup in Hjob.
  destruct (getJob k s) as [job'|]; [|done].
  case_bool_decide; [done|]. injection Hjob as ->. lia.
Qed.

Lemma aged_aged now expiryTimeMs entry :
  aged now expiryTimeMs (aged now expiryTimeMs entry)
  = aged now expiryTimeMs entry.
Proof.
  destruct entry as [mtime|]; [|done]. cbn.
  case_bool_decide as H; [done|]. cbn. by rewrite bool_decide_eq_false_2.
Qed.

End Sweep.

(** X10.  A sweep broadcasts one notice per record it removes, in the order
    of removal and after everything sent before: the notice carries the
    record's id and dates, the status ['expired'] and a time remaining of 0.
    The sweep leaves the progress table and the suspended runs as they
    are, also those of the jobs it removes. *)
Theorem sweep_notices now expiryTimeMs s :
  let removed :=
    (filter (λ kv, now > expiresAt kv.2) (map_to_list (activeJobs s))).*2 in
  sent (cleanup now expiryTimeMs s) =
    (sent s ++ ((λ job, jobUpdate (id job) ws_expired (createdAt job)
                          (expiresAt job) 0) <$> removed))%list ∧
  processingProgress (cleanup now expiryTimeMs s) = processingProgress s ∧
  runs (cleanup now expiryTimeMs s) = runs s.
Proof.
  intros removed. unfold cleanup. cbn zeta.
  destruct (cleanupTempFiles_spec now expiryTimeMs
              (removeAll now (expiredJobs now s) s)) as (_ & Hp & Hr & Hs & _).
  rewrite Hp, Hr, Hs. unfold expiredJobs.
  set (l := filter (λ kv, now > expiresAt kv.2) (map_to_list (activeJobs s))).
  destruct (removeAll_tracked now l s) as (Hsent & Hprog & Hruns).
  - eapply NoDup_fmap_fst.
    + intros k j1 j2 [_ H1]%list_elem_of_filter [_ H2]%list_elem_of_filter.
      apply elem_of_map_to_list in H1, H2. congruence.
    + apply NoDup_filter, NoDup_map_to_list.
  - intros k job [_ Hin]%list_elem_of_filter.
    by apply elem_of_map_to_list in Hin.
  - split_and!; [|done..]. rewrite Hsent. f_equal. subst removed. fold l.
    apply Forall_fmap_ext_1, Forall_fmap, Forall_forall.
    intros [k job] [Hexp _]%list_elem_of_filter. cbn in *.
    unfold expiredNotice. by rewrite Z.max_l by lia.
Qed.

(** X11.  A sweep repeated at the same instant does nothing: the state after
    the second sweep is the state after the first, with no further record
    or file removed and no further notice sent. *)
Theorem sweep_is_idempotent now expiryTimeMs s :
  cleanup now expiryTimeMs (cleanup now expiryTimeMs s)
  = cleanup now expiryTimeMs s.
Proof.
  set (s1 := cleanup now expiryTimeMs s).
  unfold cleanup at 1. cbn zeta. subst s1.
  rewrite expiredJobs_cleanup.
  change (removeAll now [] (cleanup now expiryTimeMs s))
    with (cleanup now expiryTimeMs s).
  destruct (cleanupTempFiles_spec now expiryTimeMs
              (cleanup now expiryTimeMs s)) as (Ha & Hp & Hr & Hs & Hd).
  apply Server_eq; try done.
  apply map_eq. intros f. rewrite Hd.
  unfold cleanup at 1 2. cbn zeta.
  destruct (cleanupTempFiles_spec now expiryTimeMs
              (removeAll now (expiredJobs now s) s)) as (_ & _ & _ & _ & Hd0).
  rewrite Hd0. apply aged_aged.
Qed.

(** ** The health routes *)

Section Health.
Implicit Types (s : Server) (job : FileJob) (l : list FileJob).

Lemma length_by_status l :
  length l =
    (length (filter (λ job, status job = processing) l) +
     length (filter (λ job, status job = completed) l) +
     length (filter (λ job, status job = failed) l))%nat.
Proof.
  induction l as [|job l IH]; [done|].
  rewrite !filter_cons. cbn [length]. rewrite IH.
  destruct (status job); repeat case_decide; try done; cbn [length]; lia.
Qed.

Lemma length_getAllJobs s :
  length (getAllJobs s) = base.size (activeJobs s).
Proof. unfold getAllJobs. by rewrite length_fmap, length_map_to_list. Qed.

Lemma elem_of_getAllJobs job s :
  job ∈ getAllJobs s ↔ ∃ k, getJob k s = Some job.
Proof.
  unfold getAllJobs, getJob. rewrite list_elem_of_fmap. split.
  - intros [[k j] [-> Hin]]. exists k. by apply elem_of_map_to_list.
  - intros [k Hk]. exists (k, job). split; [done|].
    by apply elem_of_map_to_list.
Qed.

End Health.

(** X12.  The counts of the health route add up: the number of active jobs
    is the number of records of the registry and is the sum of the numbers
    of processing, completed and failed jobs.  The cleanup status route
    lists one entry per record, each the entry of a tracked job, with a
    time remaining that is not negative. *)
Theorem health_counts_add_up now s :
  active (health_jobs s) = base.size (activeJobs s) ∧
  active (health_jobs s) =
    (processingJobs (health_jobs s) + completedJobs (health_jobs s) +
     failedJobs (health_jobs s))%nat ∧
  (health_cleanup now s).1 = base.size (activeJobs s) ∧
  length (health_cleanup now s).2 = base.size (activeJobs s) ∧
  ∀ d, d ∈ (health_cleanup now s).2 →
       0 ≤ detail_timeRemaining d ∧
       ∃ k job, getJob k s = Some job ∧ d = job_detail now job.
Proof.
  unfold health_jobs, health_cleanup. cbn [active processingJobs
    completedJobs failedJobs fst snd].
  split_and!.
  - apply length_getAllJobs.
  - apply length_by_status.
  - apply length_getAllJobs.
  - rewrite length_fmap. apply length_getAllJobs.
  - intros d [job [-> Hin]]%list_elem_of_fmap. split; [cbn; lia|].
    apply elem_of_getAllJobs in Hin as [k Hk]. by exists k, job.
Qed.

Lemma health_counts_add_up_witness :
  let s := exec Scenario.finished init in
  let d := job_detail 20000 (Scenario.job_J completed (Some Scenario.out_J)) in
  health_jobs s = mkHealthJobs 1 0 1 0 ∧
  d ∈ (health_cleanup 20000 s).2 ∧ 0 ≤ detail_timeRemaining d.
Proof.
  intros s d.
  assert (Hd : d ∈ (health_cleanup 20000 s).2).
  { apply list_elem_of_In. vm_compute. tauto. }
  destruct (health_counts_add_up 20000 s) as (_ & _ & _ & _ & H).
  destruct (H d Hd) as [Hpos _].
  split_and!; [vm_compute; reflexivity|exact Hd|exact Hpos].
Defined.

(** X13.  The active count follows the registry: an upload under an id that
    is not yet tracked raises it by one, whatever else the registry holds,
    the empty registry included; a delete request for a tracked job lowers
    it by one. *)
Theorem active_count_follows_registry now upl uuid fileId job s :
  (getJob uuid s = None →
   active (health_jobs (post_upload now (Some upl) uuid s).2)
     = S (active (health_jobs s))) ∧
  (getJob fileId s = Some job →
   S (active (health_jobs (delete_upload now fileId s).2))
     = active (health_jobs s)).
Proof.
  unfold health_jobs. cbn [active].
  rewrite !length_getAllJobs. split.
  - intros Hnone. unfold post_upload. cbn. by apply map_size_insert_None.
  - intros Hjob. unfold delete_upload. rewrite Hjob. cbn [snd].
    assert (Ha : activeJobs (removeJob now fileId s)
                 = delete fileId (activeJobs s)).
    { unfold removeJob. unfold getJob in Hjob. rewrite Hjob. cbn.
      destruct (outputPath job); [destruct (truthy _)|];
        by rewrite ?activeJobs_deleteFileIfExists. }
    rewrite Ha, map_size_delete_Some by (by eexists).
    assert (base.size (activeJobs s) ≠ 0%nat); [|lia].
    intros Hz. apply map_size_empty_inv in Hz.
    unfold getJob in Hjob. by rewrite Hz, lookup_empty in Hjob.
Qed.

Lemma active_count_follows_registry_witness :
  let s := exec Scenario.admitted init in
  (getJob "J" init = None ∧
   active (health_jobs init) = 0%nat ∧
   active (health_jobs (post_upload 0 (Some Scenario.clip) "J" init).2)
     = 1%nat) ∧
  (getJob "K" s = None ∧
   active (health_jobs (post_upload 5000 (Some Scenario.clip2) "K" s).2)
     = 2%nat) ∧
  (getJob "J" s = Some (Scenario.job_J processing None) ∧
   active (health_jobs (delete_upload 5000 "J" s).2) = 0%nat).
Proof.
  intros s.
  assert (Hfresh : getJob "J" init = None) by (vm_compute; reflexivity).
  assert (Hnone : getJob "K" s = None) by (vm_compute; reflexivity).
  assert (Hjob : getJob "J" s = Some (Scenario.job_J processing None))
    by (vm_compute; reflexivity).
  destruct (active_count_follows_registry 0 Scenario.clip "J" "J"
              (Scenario.job_J processing None) init) as [Hfirst _].
  destruct (active_count_follows_registry 5000 Scenario.clip2 "K" "J"
              (Scenario.job_J processing None) s) as [Hup Hdel].
  split_and!; [exact Hfresh|vm_compute; reflexivity| |exact Hnone|
               |exact Hjob|].
  - rewrite (Hfirst Hfresh). vm_compute. reflexivity.
  - rewrite (Hup Hnone). vm_compute. reflexivity.
  - apply eq_add_S. rewrite (Hdel Hjob). vm_compute. reflexivity.
Defined.

(** ** Strings: stored file names and output paths *)

Section Strings.
Implicit Types (s t u : string) (segs : list string).

Lemma append_cons c s t : (String c s ++ t = String c (s ++ t))%string.
Proof. reflexivity. Qed.

Lemma append_assoc s t u : ((s ++ t) ++ u = s ++ (t ++ u))%string.
Proof.
  induction s as [|c s IH]; [done|]. rewrite !append_cons. by f_equal.
Qed.

Lemma length_append s t :
  String.length (s ++ t) = (String.length s + String.length t)%nat.
Proof.
  induction s as [|c s IH]; [done|]. rewrite append_cons. cbn. by f_equal.
Qed.

(** Two concatenations with left parts of equal length agree part by
    part. *)
Lemma append_inj_length s s' t t' :
  String.length s = String.length s' →
  (s ++ t = s' ++ t')%string → s = s' ∧ t = t'.
Proof.
  revert s'. induction s as [|c s IH]; intros [|c' s'] Hlen Heq;
    try done.
  rewrite !append_cons in Heq.
  injection Heq as -> Heq. injection Hlen as Hlen.
  destruct (IH s' Hlen Heq) as [-> ->]. done.
Qed.

Lemma append_inj_r s s' t : (s ++ t = s' ++ t)%string → s = s'.
Proof.
  intros Heq. apply (append_inj_length s s' t t); [|done].
  apply (f_equal String.length) in Heq. rewrite !length_append in Heq. lia.
Qed.

Lemma contains_dot_append s t : contains_dot (s ++ "." ++ t) = true.
Proof.
  induction s as [|c s IH]; [done|]. rewrite append_cons.
  cbn [contains_dot]. rewrite IH. by destruct (Ascii.eqb c ".").
Qed.

Lemma split_dot_nonempty s : split_dot s ≠ [].
Proof.
  destruct s as [|c s]; cbn; [done|].
  destruct (Ascii.eqb c "."%char); [done|]. by destruct (split_dot s).
Qed.

Lemma join_dot_cons seg segs :
  segs ≠ [] → join_dot (seg :: segs) = (seg ++ "." ++ join_dot segs)%string.
Proof. by destruct segs. Qed.

Lemma join_split_dot s : join_dot (split_dot s) = s.
Proof.
  induction s as [|c s IH]; [done|]. cbn [split_dot].
  destruct (Ascii.eqb_spec c "."%char) as [->|Hne].
  - rewrite join_dot_cons by apply split_dot_nonempty. by rewrite IH.
  - pose proof (split_dot_nonempty s) as Hn.
    destruct (split_dot s) as [|seg segs]; [done|].
    destruct segs as [|seg' segs].
    + cbn in *. by rewrite IH.
    + rewrite join_dot_cons by done. rewrite join_dot_cons in IH by done.
      cbn. by rewrite <- IH.
Qed.

Lemma split_dot_no_dot s : Forall (λ seg, contains_dot seg = false) (split_dot s).
Proof.
  induction s as [|c s IH]; cbn [split_dot].
  - by repeat constructor.
  - destruct (Ascii.eqb c "."%char) eqn:Hc.
    + by constructor.
    + pose proof (split_dot_nonempty s) as Hne.
      destruct (split_dot s) as [|seg segs]; [done|].
      apply Forall_cons in IH as [Hseg Hsegs]. constructor; [|done].
      cbn. by rewrite Hc, Hseg.
Qed.

Lemma join_dot_snoc segs seg :
  segs ≠ [] →
  join_dot (segs ++ [seg]) = (join_dot segs ++ "." ++ seg)%string.
Proof.
  induction segs as [|x segs IH]; [done|]. intros _.
  destruct segs as [|y segs]; [done|].
  change ((x :: y :: segs) ++ [seg])%list
    with (x :: ((y :: segs) ++ [seg]))%list.
  rewrite join_dot_cons by done. rewrite IH by done.
  rewrite (join_dot_cons x (y :: segs)) by done. by rewrite !append_assoc.
Qed.

End Strings.

(** X14.  The extension multer gives a stored upload is the part of the
    original name after its last dot.  It contains no dot; the original name
    is the extension itself when it has no dot, and a stem, a dot and the
    extension otherwise, so that a name without a dot is used whole as the
    extension.  Splitting a name at its dots and joining the segments with
    dots gives the name back. *)
Theorem upload_extension_is_last_segment uniqueSuffix originalname :
  let ext := pop (split_dot originalname) in
  storage_filename uniqueSuffix originalname
    = (uniqueSuffix ++ "." ++ ext)%string ∧
  contains_dot ext = false ∧
  (if contains_dot originalname
   then ∃ stem, originalname = (stem ++ "." ++ ext)%string
   else originalname = ext) ∧
  join_dot (split_dot originalname) = originalname.
Proof.
  intros ext. split; [done|].
  pose proof (join_split_dot originalname) as Hjoin.
  pose proof (split_dot_no_dot originalname) as Hdots.
  pose proof (split_dot_nonempty originalname) as Hne.
  subst ext. unfold pop.
  destruct (split_dot originalname) as [|x l] using rev_ind; [done|].
  clear IHl. rewrite last_snoc. cbn [default from_option Datatypes.id].
  apply Forall_app in Hdots as [Hl Hx]. apply Forall_cons in Hx as [Hx _].
  split_and!; [done| |done].
  destruct l as [|y l].
  - cbn in Hjoin. subst x. by rewrite Hx.
  - rewrite join_dot_snoc in Hjoin by done.
    assert (Hc : contains_dot originalname = true)
      by (rewrite <- Hjoin; apply contains_dot_append).
    rewrite Hc. by exists (join_dot (y :: l)).
Qed.

(** X15.  Output paths do not collide: two calls of [generateOutputPath]
    whose timestamps have the same length, as the 24 characters of an ISO
    date always have, return the same path only for the same timestamp and
    the same uuid.  Every output path lies in the temporary directory of the
    uploads and is not empty. *)
Theorem output_paths_do_not_collide timestamp uuid timestamp' uuid' :
  String.length timestamp = String.length timestamp' →
  generateOutputPath timestamp uuid = generateOutputPath timestamp' uuid' →
  timestamp = timestamp' ∧ uuid = uuid' ∧
  String.prefix "/tmp/penguinblur/" (generateOutputPath timestamp uuid)
    = true ∧
  truthy (Some (generateOutputPath timestamp uuid)) = true.
Proof.
  intros Hlen Heq. unfold generateOutputPath in Heq.
  apply (String.app_inj "/tmp/penguinblur/processed-") in Heq.
  apply append_inj_length in Heq as [-> Heq]; [|done].
  apply (String.app_inj "-") in Heq. apply append_inj_r in Heq as ->.
  done.
Qed.

Lemma output_paths_do_not_collide_witness :
  String.prefix "/tmp/penguinblur/"
    (generateOutputPath "2026-01-01T00-00-03-500Z" "0b1e") = true.
Proof.
  apply (output_paths_do_not_collide
           "2026-01-01T00-00-03-500Z" "0b1e"
           "2026-01-01T00-00-03-500Z" "0b1e"); reflexivity.
Defined.

(** ** The simulated transcoder *)

Section Reports.

Lemma interval_reports_bounds ticks progress :
  Forall (λ r, Z.min (progress + 2) 95 ≤ r ≤ 95)
         (interval_reports ticks progress).
Proof.
  revert progress. induction ticks as [|n IH]; intros progress; cbn.
  - constructor.
  - constructor; [lia|]. case_bool_decide; [constructor|].
    eapply Forall_impl; [apply IH|]. cbn. lia.
Qed.

Lemma interval_reports_sorted ticks progress :
  StronglySorted Z.le (interval_reports ticks progress).
Proof.
  revert progress. induction ticks as [|n IH]; intros progress; cbn.
  - constructor.
  - case_bool_decide; constructor; try done; try constructor.
    eapply Forall_impl; [apply interval_reports_bounds|]. cbn. lia.
Qed.

End Reports.


(** ** The error handler *)

Section ErrorHandler.

Lemma or_number_nonzero x y : y ≠ 0 → or_number x y ≠ 0.
Proof.
  intros Hy. unfold or_number. destruct x as [n|]; [|done].
  by case_bool_decide.
Qed.

Lemma or_number_cases x y :
  or_number x y = y ∨ x = Some (or_number x y).
Proof.
  unfold or_number. destruct x as [n|]; [|by left].
  case_bool_decide; [by left|by right].
Qed.

Lemma or_number_known (n : Z) :
  n ∈ [400; 404; 500] → or_number (Some n) 500 ∈ [400; 404; 500].
Proof.
  intros Hn. unfold or_number. case_bool_decide; [|exact Hn].
  repeat (apply list_elem_of_here || apply list_elem_of_further).
Qed.

Lemma or_string_nonempty x y : y ≠ "" → or_string x y ≠ "".
Proof. intros Hy. unfold or_string. by destruct (String.eqb_spec x ""). Qed.

End ErrorHandler.

(** X17.  The error handler fails exactly on a validation error without
    [errors].  Otherwise it answers with a status code that is never 0: one
    of 400, 404 and 500, or the status code the error carries; the error
    text of the answer is never empty; an error whose message mentions
    "opencv" is answered 500 "Face detection failed..." whatever its name
    and code; and the stack is sent only in development. *)
Theorem errorHandler_answer development err :
  (errorHandler development err = None ↔
   err_name err = "ValidationError" ∧ err_errors err = None) ∧
  ∀ resp, errorHandler development err = Some resp →
    er_status resp ≠ 0 ∧
    (er_status resp ∈ [400; 404; 500] ∨
     err_statusCode err = Some (er_status resp)) ∧
    er_error resp ≠ "" ∧
    (includes "opencv" (err_message err) = true →
     er_status resp = 500 ∧
     er_error resp =
       "Face detection failed. Please ensure faces are visible in the video.") ∧
    (development = false → er_stack resp = None).
Proof.
  unfold errorHandler. split.
  - destruct (String.eqb_spec (err_name err) "ValidationError") as [Hv|Hv].
    + destruct (err_errors err); cbn; [|done]. split; [done|]. by intros [_ ?].
    + cbn. split; [done|]. by intros [? _].
  - intros resp Hresp.
    assert (Hopen : includes "opencv" (err_message err) = true →
                    negb (String.eqb (err_message err) "")
                    && includes "opencv" (err_message err) = true).
    { intros Hi. rewrite Hi, andb_true_r.
      destruct (String.eqb_spec (err_message err) "") as [He|]; [|done].
      by rewrite He in Hi. }
    pose proof or_number_known as Hin.
    destruct (String.eqb (err_name err) "ValidationError");
      [destruct (err_errors err) as [messages|]; [|done]|];
      injection Hresp as <-; cbn [er_status er_error er_stack];
      (split_and!;
       [by apply or_number_nonzero
       |
       |by apply or_string_nonempty
       |by intros Hi; rewrite (Hopen Hi)
       |by intros ->]).
    all: repeat
           match goal with
           | |- context [if ?b then _ else _] => destruct b
           end; cbn [fst snd].
    all: try (left; apply Hin;
              repeat (apply list_elem_of_here || apply list_elem_of_further)).
    all: destruct (or_number_cases (err_statusCode err) 500) as [->| <-];
      [left; repeat (apply list_elem_of_here || apply list_elem_of_further)
      |by right].
Qed.

Lemma errorHandler_answer_witness :
  let err := mkCustomError "MulterError" "opencv cascade missing"
               (Some (code_string "LIMIT_FILE_SIZE")) None None
               (Some "at upload") in
  errorHandler false err =
    Some (mkErrorResponse 500
            "Face detection failed. Please ensure faces are visible in the video."
            None) ∧
  includes "opencv" (err_message err) = true.
Proof.
  intros err.
  assert (Hresp : errorHandler false err =
    Some (mkErrorResponse 500
            "Face detection failed. Please ensure faces are visible in the video."
            None)) by (vm_compute; reflexivity).
  assert (Hinc : includes "opencv" (err_message err) = true)
    by (vm_compute; reflexivity).
  destruct (errorHandler_answer false err) as [_ H].
  destruct (H _ Hresp) as (_ & _ & _ & Hopen & _).
  destruct (Hopen Hinc) as [_ _].
  split; [exact Hresp|exact Hinc].
Defined.

(** ** Face detection *)

Section Detection.
Implicit Types (a : OptionsArg) (face : DetectedFace).

Lemma elem_of_slice0 {A} (stop : Z) (l : list A) (x : A) :
  x ∈ slice0 stop l → x ∈ l.
Proof. unfold slice0. apply subseteq_take. Qed.

Lemma length_slice0 {A} (stop : Z) (l : list A) :
  (length (slice0 stop l) ≤ length l)%nat ∧
  (0 ≤ stop → Z.of_nat (length (slice0 stop l)) ≤ stop).
Proof.
  unfold slice0. rewrite length_take. split; [lia|].
  intros Hstop. rewrite bool_decide_eq_false_2 by lia. lia.
Qed.

Lemma config_maxFaces_nonzero a : config_maxFaces a ≠ 0.
Proof.
  unfold config_maxFaces. destruct (arg_maxFaces a) as [n|]; [|done].
  by case_bool_decide.
Qed.

(** Every detection is a slice of a filtered list of at most three
    candidates. *)
Lemma sliced_filtered (P : DetectedFace → Prop) `{!∀ f, Decision (P f)}
    (stop : Z) (candidates faces : list DetectedFace) :
  faces = slice0 stop (filter P candidates) →
  (∀ face, face ∈ faces → P face) ∧
  (length faces ≤ length candidates)%nat ∧
  (0 ≤ stop → Z.of_nat (length faces) ≤ stop).
Proof.
  intros ->. destruct (length_slice0 stop (filter P candidates)) as [Hl Hs].
  split_and!; [|pose proof (length_filter P candidates); lia|done].
  intros face Hin%elem_of_slice0. by apply list_elem_of_filter in Hin as [? _].
Qed.

End Detection.

(** X18.  Whatever the options, a detection that succeeds returns at most
    three faces, each with a confidence of at least the threshold of its
    mode: 0.8 in conservative mode, 0.5 in aggressive mode, and otherwise
    the requested confidence, or 0.15 when none or 0 is requested.  A
    requested maximum of 0 faces counts as 10; a maximum that is not
    negative bounds the number of faces; manual mode returns no face. *)
Theorem detection_respects_options files inputPath a faces :
  detectFaces files inputPath a = inr faces →
  (∀ face, face ∈ faces → (threshold a <= face_confidence face)%Q) ∧
  (length faces ≤ 3)%nat ∧
  config_maxFaces a ≠ 0 ∧
  (0 ≤ config_maxFaces a → Z.of_nat (length faces) ≤ config_maxFaces a) ∧
  (config_mode a = "manual" → faces = []).
Proof.
  unfold detectFaces, threshold. destruct (files !! inputPath); [|done].
  intros [= <-]. split_and!; [| |apply config_maxFaces_nonzero| |].
  4: { intros ->. reflexivity. }
  all: destruct (String.eqb (config_mode a) "conservative");
    [|destruct (String.eqb (config_mode a) "aggressive");
      [|destruct (String.eqb_spec (config_mode a) "manual")]].
  all: try (cbn; intros; (lia || by (exfalso; eapply not_elem_of_nil))).
  all: lazymatch goal with
       | |- context [conservativeDetection ?o] =>
           destruct (sliced_filtered _ _ _ (conservativeDetection o) eq_refl)
             as (HP & Hlen & Hmax)
       | |- context [aggressiveDetection ?o] =>
           destruct (sliced_filtered _ _ _ (aggressiveDetection o) eq_refl)
             as (HP & Hlen & Hmax)
       | |- context [autoDetection ?o] =>
           destruct (sliced_filtered _ _ _ (autoDetection o) eq_refl)
             as (HP & Hlen & Hmax)
       end.
  all: try (intros face Hin; by apply Qle_bool_iff, HP).
  all: try (cbn in Hlen; lia).
  all: try exact Hmax.
Qed.

Lemma detection_respects_options_witness :
  let a := options_object
             (mkFaceDetectionOptions (Some "conservative") None (Some 0)
                                     None) in
  let files : gmap string Z := {[ "/tmp/penguinblur/clip.mp4" := 0 ]} in
  let faces := [mkDetectedFace "face-1" 120 90 50 70 (92 # 100) 0] in
  detectFaces files "/tmp/penguinblur/clip.mp4" a = inr faces ∧
  config_maxFaces a = 10 ∧
  Z.of_nat (length faces) ≤ config_maxFaces a.
Proof.
  intros a files faces.
  assert (H : detectFaces files "/tmp/penguinblur/clip.mp4" a = inr faces)
    by (vm_compute; reflexivity).
  destruct (detection_respects_options _ _ _ _ H) as (_ & _ & _ & Hmax & _).
  split_and!; [exact H|reflexivity|apply Hmax; vm_compute; discriminate].
Defined.

(** X19.  The detection mode of a process request has no effect:
    [processVideoAsync] passes it as the options argument, a string has no
    [mode], and the detection runs in auto mode with the default
    confidence and maximum.  It finds the two faces of the auto detection
    when the input file is on the disk and fails with "Face detection
    failed: Input file not found: ..." when it is not. *)
Theorem detection_ignores_requested_mode files inputPath mode :
  detectFaces files inputPath (options_string mode) =
    match files !! inputPath with
    | Some _ =>
        inr [mkDetectedFace "face-1" 100 80 60 80 (85 # 100) 0;
             mkDetectedFace "face-2" 300 120 55 75 (78 # 100) 1000]
    | None =>
        inl ("Face detection failed: Input file not found: " ++ inputPath)
    end.
Proof.
  unfold detectFaces. destruct (files !! inputPath); [|done].
  f_equal.
Qed.

(** X20.  The blur region of a face covers the face: for a face inside the
    frame (coordinates and sizes not negative) the region starts at or
    before the face on both axes, never before 0, and ends at or after it.
    [facesToBlurRegions] returns one region per face, in order, with the
    face's id, confidence and timestamp. *)
Theorem blur_region_covers_face faces i face :
  faces !! i = Some face →
  0 ≤ face_x face → 0 ≤ face_y face →
  0 ≤ face_width face → 0 ≤ face_height face →
  length (facesToBlurRegions faces) = length faces ∧
  ∃ region, facesToBlurRegions faces !! i = Some region ∧
    region_id region = face_id face ∧
    region_confidence region = face_confidence face ∧
    region_timestamp region = face_timestamp face ∧
    (0 <= region_x region <= inject_Z (face_x face))%Q ∧
    (0 <= region_y region <= inject_Z (face_y face))%Q ∧
    (inject_Z (face_x face + face_width face)
       <= region_x region + region_width region)%Q ∧
    (inject_Z (face_y face + face_height face)
       <= region_y region + region_height region)%Q.
Proof.
  intros Hface Hx Hy Hw Hh. unfold facesToBlurRegions.
  split; [apply length_fmap|].
  rewrite list_lookup_fmap, Hface. cbn. eexists. split; [done|].
  cbn. split_and!; try done.
  all: rewrite ?inject_Z_plus.
  all: rewrite Zle_Qle in Hx, Hy, Hw, Hh;
    change (inject_Z 0) with 0%Q in Hx, Hy, Hw, Hh.
  all: try apply Q.le_max_l.
  all: try (apply Q.max_lub; lra).
  all: match goal with
       | |- context [Qmax ?u ?v] => pose proof (Q.le_max_r u v); lra
       end.
Qed.

Lemma blur_region_covers_face_witness :
  let face := mkDetectedFace "face-1" 100 80 60 80 (85 # 100) 0 in
  length (facesToBlurRegions [face]) = 1%nat ∧
  Forall (λ region, (region_x region == 55)%Q ∧ (region_y region == 0)%Q ∧
                    (region_width region == 150)%Q ∧
                    (region_height region == 160)%Q)
         (facesToBlurRegions [face]).
Proof.
  intros face.
  destruct (blur_region_covers_face [face] 0 face) as [Hlen _];
    [reflexivity|cbn; lia..|].
  split; [exact Hlen|].
  repeat constructor; vm_compute; reflexivity.
Defined.

(** ** Face tracking *)

Section Tracking.
Implicit Types (face : DetectedFace) (track : list DetectedFace)
  (T : list (string * list DetectedFace)).

Lemma isSameFace_sym face1 face2 :
  isSameFace face1 face2 = isSameFace face2 face1.
Proof.
  assert (H : ∀ u v t : Z, bool_decide (Z.abs (u - v) < t)
                           = bool_decide (Z.abs (v - u) < t))
    by (intros; apply bool_decide_ext; lia).
  unfold isSameFace. cbn zeta.
  by rewrite (H (face_x face1)), (H (face_y face1)),
    (H (face_width face1)), (H (face_height face1)).
Qed.

Lemma linked_snoc track lastFace face :
  linked track → last track = Some lastFace →
  isSameFace face lastFace = true → linked (track ++ [face]).
Proof.
  intros Hl Hlast Hsame l1 a b l2 Heq.
  destruct l2 as [|z l2 _] using rev_ind.
  - change (l1 ++ [a; b])%list with (l1 ++ [a] ++ [b])%list in Heq.
    rewrite app_assoc in Heq. apply app_inj_tail in Heq as [-> ->].
    rewrite last_snoc in Hlast. by injection Hlast as ->.
  - change (l1 ++ a :: b :: l2 ++ [z])%list
      with (l1 ++ (a :: b :: l2) ++ [z])%list in Heq.
    rewrite app_assoc in Heq. apply app_inj_tail in Heq as [-> ->].
    by apply (Hl l1 a b l2).
Qed.

Lemma linked_singleton face : linked [face].
Proof.
  intros l1 a b l2 Heq. apply (f_equal length) in Heq.
  rewrite length_app in Heq. cbn in Heq. lia.
Qed.

Lemma pushToTrack_Some face T T' :
  pushToTrack face T = Some T' →
  T'.*1 = T.*1 ∧ length T' = length T ∧
  concat T'.*2 ≡ₚ face :: concat T.*2 ∧
  (Forall (λ t, t.2 ≠ []) T → Forall (λ t, t.2 ≠ []) T') ∧
  (Forall (λ t, linked t.2) T → Forall (λ t, linked t.2) T').
Proof.
  revert T'. induction T as [|[trackId track] T IH]; intros T'; [done|].
  cbn [pushToTrack].
  destruct (last track) as [lastFace|] eqn:Hlast.
  - destruct (isSameFace face lastFace) eqn:Hsame.
    + intros [= <-]. cbn. split_and!; [done..| | |].
      * rewrite <- app_assoc. cbn. symmetry. apply Permutation_middle.
      * intros [_ H]%Forall_cons. constructor; [|done]. cbn.
        by destruct track.
      * intros [Hl H]%Forall_cons. constructor; [|done]. cbn in *.
        by apply (linked_snoc track lastFace).
    + destruct (pushToTrack face T) as [T0|]; [|done]. intros [= <-].
      destruct (IH T0 eq_refl) as (H1 & H2 & H3 & H4 & H5). cbn.
      split_and!; [by f_equal|by f_equal| | |].
      * rewrite H3. symmetry. apply Permutation_middle.
      * intros [Hh Ht]%Forall_cons. constructor; [done|by apply H4].
      * intros [Hh Ht]%Forall_cons. constructor; [done|by apply H5].
  - destruct (pushToTrack face T) as [T0|]; [|done]. intros [= <-].
    destruct (IH T0 eq_refl) as (H1 & H2 & H3 & H4 & H5). cbn.
    split_and!; [by f_equal|by f_equal| | |].
    * rewrite H3. symmetry. apply Permutation_middle.
    * intros [Hh Ht]%Forall_cons. constructor; [done|by apply H4].
    * intros [Hh Ht]%Forall_cons. constructor; [done|by apply H5].
Qed.

Lemma tracks_of_addFace faces face T :
  tracks_of faces T → tracks_of (faces ++ [face]) (addFace face T).
Proof.
  intros (Hids & Hperm & Hne & Hlink). unfold addFace.
  destruct (pushToTrack face T) as [T'|] eqn:Hpush.
  - destruct (pushToTrack_Some face T T' Hpush) as (H1 & H2 & H3 & H4 & H5).
    split_and!; [by rewrite H1, H2| |by apply H4|by apply H5].
    rewrite H3, Hperm. apply Permutation_cons_append.
  - split_and!.
    + rewrite fmap_app, length_app, Hids. cbn.
      rewrite Nat.add_1_r, seq_S, fmap_app. done.
    + rewrite fmap_app, concat_app. cbn. by rewrite Hperm.
    + apply Forall_app. split; [done|]. by repeat constructor.
    + apply Forall_app. split; [done|]. repeat constructor.
      apply linked_singleton.
Qed.

Lemma tracks_of_frame faces frame T :
  tracks_of faces T →
  tracks_of (faces ++ frame)
            (foldl (λ faceTracks face, addFace face faceTracks) T frame).
Proof.
  revert faces T. induction frame as [|face frame IH]; intros faces T HT.
  - by rewrite app_nil_r.
  - cbn. replace (faces ++ face :: frame)%list
      with ((faces ++ [face]) ++ frame)%list by by rewrite <- app_assoc.
    by apply IH, tracks_of_addFace.
Qed.

Lemma tracks_of_frames faces (facesByFrame : list (Z * list DetectedFace)) T :
  tracks_of faces T →
  tracks_of (faces ++ concat facesByFrame.*2)
    (foldl (λ faceTracks frame,
              foldl (λ faceTracks face, addFace face faceTracks)
                    faceTracks frame.2)
           T facesByFrame).
Proof.
  revert faces T.
  induction facesByFrame as [|[n frame] fb IH]; intros faces T HT.
  - cbn. by rewrite app_nil_r.
  - cbn. rewrite app_assoc. by apply IH, tracks_of_frame.
Qed.

Lemma tracks_of_groupFaces (facesByFrame : list (Z * list DetectedFace)) :
  tracks_of (concat facesByFrame.*2) (groupFaces facesByFrame).
Proof.
  apply (tracks_of_frames [] facesByFrame []).
  by split_and!; try constructor.
Qed.

Lemma trackId_of_inj : Inj (=) (=) trackId_of.
Proof.
  intros i j Heq. unfold trackId_of in Heq.
  apply (String.app_inj "track-") in Heq. by apply (inj pretty) in Heq.
Qed.

End Tracking.

(** X21.  The grouping loop of the face tracker loses and invents no face:
    the tracks together hold exactly the faces of all frames, each face in
    one track; no track is empty; and the tracks are named "track-0",
    "track-1", ... in the order of their creation, all names distinct. *)
Theorem grouping_keeps_every_face (facesByFrame : list (Z * list DetectedFace)) :
  let T := groupFaces facesByFrame in
  concat T.*2 ≡ₚ concat facesByFrame.*2 ∧
  Forall (λ t, t.2 ≠ []) T ∧
  T.*1 = (λ i : nat, "track-" ++ pretty i)%string <$> seq 0 (length T) ∧
  NoDup T.*1 ∧
  (length T ≤ length (concat facesByFrame.*2))%nat.
Proof.
  intros T.
  destruct (tracks_of_groupFaces facesByFrame) as (Hids & Hperm & Hne & _).
  fold T in Hids, Hperm, Hne. split_and!; [done..| |].
  - rewrite Hids. apply NoDup_fmap_2; [apply trackId_of_inj|apply NoDup_seq].
  - rewrite <- Hperm. clear -Hne.
    induction T as [|[k track] T IH]; [done|].
    apply Forall_cons in Hne as [Hk Hne]. cbn in *.
    rewrite length_app. specialize (IH Hne).
    destruct track; [done|]. cbn. lia.
Qed.

Section Tracked.
Implicit Types (T : list (string * list DetectedFace)).

(** A selection that keeps only tracks of more than two faces keeps at
    most a third as many tracks as there are faces. *)
Lemma omap_long_tracks {B} (f : string * list DetectedFace → option B) T :
  (∀ t y, f t = Some y → (2 < length t.2)%nat) →
  (3 * length (omap f T) ≤ length (concat T.*2))%nat.
Proof.
  intros Hf. induction T as [|t T IH]; [done|].
  cbn [omap list_omap fmap list_fmap concat]. rewrite length_app.
  destruct (f t) as [y|] eqn:E; [|lia].
  specialize (Hf t y E). cbn [length]. lia.
Qed.

Lemma stable_tracks_elem T k timestamp :
  (k, timestamp) ∈ omap (λ t : string * list DetectedFace,
                            if bool_decide (2 < length t.2)%nat
                            then (λ face, (t.1, face_timestamp face))
                                   <$> t.2 !! (length t.2 `div` 2)%nat
                            else None) T →
  ∃ track face, (k, track) ∈ T ∧ (2 < length track)%nat ∧
                face ∈ track ∧ timestamp = face_timestamp face.
Proof.
  intros [[k' track] [Hin Hsome]]%list_elem_of_omap. cbn in Hsome.
  case_bool_decide as Hlen; [|done].
  destruct (track !! _) as [face|] eqn:Hface; [|done].
  injection Hsome as Hk Ht. subst k' timestamp. exists track, face.
  split_and!; [done..| |done]. by eapply list_elem_of_lookup_2.
Qed.

End Tracked.

(** X22.  Every track is a chain: each face after the first of a track is
    the same face as its predecessor, that is nearer than 50 in both
    coordinates and nearer than 20 in both sizes, a test that is symmetric.
    The tracker returns a face only for a track of at least three faces, so
    at most a third as many faces as it was given; each returned face has
    the id of its track and the timestamp of one of that track's faces. *)
Theorem tracked_faces_are_stable (facesByFrame : list (Z * list DetectedFace)) :
  Forall (λ t, linked t.2) (groupFaces facesByFrame) ∧
  (∀ face1 face2, isSameFace face1 face2 = isSameFace face2 face1) ∧
  (3 * length (trackedFaces facesByFrame)
   ≤ length (concat facesByFrame.*2))%nat ∧
  ∀ k timestamp, (k, timestamp) ∈ trackedFaces facesByFrame →
    ∃ track face, (k, track) ∈ groupFaces facesByFrame ∧
                  (2 < length track)%nat ∧ face ∈ track ∧
                  timestamp = face_timestamp face.
Proof.
  destruct (tracks_of_groupFaces facesByFrame) as (_ & Hperm & _ & Hlink).
  split_and!; [done|apply isSameFace_sym| |].
  - unfold trackedFaces. rewrite <- Hperm. apply omap_long_tracks.
    intros t y. by case_bool_decide.
  - intros k timestamp. apply stable_tracks_elem.
Qed.

Lemma tracked_faces_are_stable_witness :
  let f (x t : Z) := mkDetectedFace "face-1" x 80 60 80 (85 # 100) t in
  let far := mkDetectedFace "face-2" 300 120 55 75 (78 # 100) 33 in
  let frames := [(0, [f 100 0]); (1, [f 110 33; far]); (2, [f 120 66])] in
  trackedFaces frames = [("track-0", 33)] ∧
  ∃ track face, ("track-0", track) ∈ groupFaces frames ∧
                (2 < length track)%nat ∧ face ∈ track ∧
                33 = face_timestamp face.
Proof.
  intros f far frames.
  assert (Hout : trackedFaces frames = [("track-0", 33)])
    by (vm_compute; reflexivity).
  split; [exact Hout|].
  destruct (tracked_faces_are_stable frames) as (_ & _ & _ & H).
  apply H. rewrite Hout. apply list_elem_of_here.
Defined.
